(** * Discrete Gaussian-derivative kernels of ITK: a shallow embedding

    The development follows [itkGaussianDerivativeOperator.hxx]:
    the modified Bessel functions [ModifiedBesselI0], [ModifiedBesselI1]
    and [ModifiedBesselI], the order-0 kernel of
    [GenerateGaussianCoefficients] and the derivative kernel of
    [GenerateCoefficients].

    A C++ [double] is a primitive binary64 [float] of the kernel, so every
    sum, product, quotient, square root and comparison below rounds
    and compares exactly like IEEE-754 arithmetic in round-to-nearest
    (no fused multiply-add contraction).  An [int] is a [Z] and an
    [unsigned int] an [N]; signed overflow, which C++ leaves undefined,
    is not modelled.  A [std::vector<double>] is a [list float]; every
    index the code uses is within the vector, and [nth] is given a
    default it never returns. *)

From Stdlib Require Import String ZArith NArith List Bool Lia Floats.
From Stdlib Require Uint63.
Import ListNotations.
Set Warnings "-inexact-float".

Local Open Scope float_scope.

(** ** Doubles, integers and conversions *)

Abbreviation double := float (only parsing).

(** [static_cast<double>(z)] for an integer [z]. *)
Definition int2double (z : Z) : double :=
  if (z <? 0)%Z then - of_uint63 (Uint63.of_Z (- z))
  else of_uint63 (Uint63.of_Z z).

(** [static_cast<int>(x)]: truncation toward zero.  The conversion is
    undefined in C++ when [x] is NaN, infinite or out of range; the model
    gives [0] on the first two and the unbounded integer on the last. *)
Definition double2int (x : double) : Z :=
  match Prim2SF x with
  | S754_finite s m e =>
      let v := Z.shiftl (Z.pos m) e in if s then (- v)%Z else v
  | _ => 0%Z
  end.

(** [static_cast<int>(u)] for an [unsigned int] [u]: values above
    [INT_MAX] wrap to negative numbers. *)
Definition unsigned2int (u : N) : Z :=
  let z := (Z.of_N u mod 2 ^ 32)%Z in
  if (z <? 2 ^ 31)%Z then z else (z - 2 ^ 32)%Z.

(** [x > y] on doubles (false as soon as one side is NaN). *)
Definition gtb (x y : double) : bool := y <? x.

(** [NumericTraits<double>::epsilon()], the machine epsilon [2^-52]
    of [std::numeric_limits<double>]. *)
Definition epsilon : double := 0x1p-52.

(** ** Results of calls *)

(** The exception of ITK, with its description. *)
Inductive ExceptionObject : Type :=
| MkExceptionObject (description : string).

(** A call returns, throws, or (for the model of the accumulation loop
    only) runs out of the fuel it was given. *)
Inductive outcome (A : Type) : Type :=
| Returns (a : A)
| Throws (e : ExceptionObject)
| OutOfFuel.
Arguments Returns {A} a.
Arguments Throws {A} e.
Arguments OutOfFuel {A}.

Definition bind {A B : Type} (c : outcome A) (k : A -> outcome B) : outcome B :=
  match c with
  | Returns a => k a
  | Throws e => Throws e
  | OutOfFuel => OutOfFuel
  end.

Notation "x <- c ;; k" := (bind c (fun x => k))
  (at level 61, c at next level, right associativity).

Definition fmap {A B : Type} (f : A -> B) (c : outcome A) : outcome B :=
  x <- c ;; Returns (f x).

(** The warnings [itkWarningMacro] sends to the output window. *)
Inductive Warning : Type :=
| KernelFailedToAccumulate (remainder coefficient : double)
| KernelSizeExceeded (maximumWidth : N) (elements : nat).

(** ** [CompensatedSummation<double>] *)

Module CompensatedSummation.

(** Modelled from the spec: [itkCompensatedSummation.h] is not among the
    sources.  The specification describes the class as a summation that
    tracks and corrects the accumulated rounding error: a running sum and
    a compensation term (Kahan), both taken here with the precision of
    [double]. *)
Record t : Type := Make { m_Sum : double; m_Compensation : double }.

(** Modelled from the spec: construction from, and assignment of, a plain
    value; the compensation starts at zero. *)
Definition of_double (x : double) : t :=
  {| m_Sum := x; m_Compensation := 0 |}.

(** Modelled from the spec: the default construction. *)
Definition empty : t := of_double 0.

(** Modelled from the spec: [operator+=], the compensated addition. *)
Definition AddElement (s : t) (element : double) : t :=
  let compensatedInput := element - m_Compensation s in
  let tempSum := m_Sum s + compensatedInput in
  {| m_Sum := tempSum;
     m_Compensation := (tempSum - m_Sum s) - compensatedInput |}.

(** Modelled from the spec: [operator*=]. *)
Definition Scale (s : t) (rhs : double) : t :=
  {| m_Sum := m_Sum s * rhs; m_Compensation := m_Compensation s * rhs |}.

(** Modelled from the spec: [GetSum]. *)
Definition GetSum (s : t) : double := m_Sum s.

End CompensatedSummation.

(** ** The operator *)

Record GaussianDerivativeOperator : Type := {
  m_NormalizeAcrossScale : bool;
  m_Variance : double;
  m_MaximumError : double;
  m_MaximumKernelWidth : N;
  m_Order : N;
  m_Spacing : double
}.

Definition CoefficientVector : Type := list double.

(** State of the downward recurrence of [ModifiedBesselI].  The field
    [iterations] is a ghost counter of executed loop bodies; the code has
    no such variable. *)
Record recurrence : Type := {
  qip : double;
  qi : double;
  accumulator : double;
  iterations : nat
}.

Section Operator.

(** [std::exp] and [std::pow] of the C library, and the coefficients
    that the external [DerivativeOperator] of a given order holds after
    [CreateDirectional]. *)
Variable exp : double -> double.
Variable pow : double -> double -> double.
Variable DerivativeOperator : N -> CoefficientVector.

Definition ModifiedBesselI0 (y : double) : double :=
  let d := abs y in
  if d <? 3.75 then
    let m := y / 3.75 in
    let m := m * m in
    1.0 + m * (3.5156229 + m * (3.0899424 + m * (1.2067492
        + m * (0.2659732 + m * (0.360768e-1 + m * 0.45813e-2)))))
  else
    let m := 3.75 / d in
    (exp d / sqrt d) *
    (0.39894228 +
     m * (0.1328592e-1 +
          m * (0.225319e-2 +
               m * (-0.157565e-2 +
                    m * (0.916281e-2 +
                         m * (-0.2057706e-1 + m * (0.2635537e-1
                           + m * (-0.1647633e-1 + m * 0.392377e-2)))))))).

(** The value of [accumulator] of [ModifiedBesselI1] before the final
    test on the sign of [y]. *)
Definition ModifiedBesselI1_accumulator (y : double) : double :=
  let d := abs y in
  if d <? 3.75 then
    let m := y / 3.75 in
    let m := m * m in
    d * (0.5 + m * (0.87890594 +
                    m * (0.51498869 + m * (0.15084934
                      + m * (0.2658733e-1 + m * (0.301532e-2 + m * 0.32411e-3))))))
  else
    let m := 3.75 / d in
    let accumulator :=
      0.2282967e-1 + m * (-0.2895312e-1 + m * (0.1787654e-1 - m * 0.420059e-2)) in
    let accumulator :=
      0.39894228 + m * (-0.3988024e-1 + m * (-0.362018e-2
        + m * (0.163801e-2 + m * (-0.1031555e-1 + m * accumulator)))) in
    accumulator * (exp d / sqrt d).

Definition ModifiedBesselI1 (y : double) : double :=
  let accumulator := ModifiedBesselI1_accumulator y in
  if y <? 0.0 then - accumulator else accumulator.

Definition DIGITS : double := 10.0.

(** One turn of the loop [for (int j = ...; j > 0; j--)]. *)
Definition recurrence_body (n : Z) (toy : double) (j : Z) (s : recurrence)
  : recurrence :=
  let qim := qip s + int2double j * toy * qi s in
  let s := {| qip := qi s; qi := qim; accumulator := accumulator s;
              iterations := S (iterations s) |} in
  let s :=
    if gtb (abs (qi s)) 1.0e10 then
      {| qip := qip s * 1.0e-10; qi := qi s * 1.0e-10;
         accumulator := accumulator s * 1.0e-10;
         iterations := iterations s |}
    else s in
  if (j =? n)%Z then
    {| qip := qip s; qi := qi s; accumulator := qip s;
       iterations := iterations s |}
  else s.

(** The loop itself, from [j] down to [1]. *)
Fixpoint recurrence_loop (n : Z) (toy : double) (j : nat) (s : recurrence)
  : recurrence :=
  match j with
  | O => s
  | S j' => recurrence_loop n toy j' (recurrence_body n toy (Z.of_nat j) s)
  end.

(** [ModifiedBesselI] together with the number of loop bodies it ran. *)
Definition ModifiedBesselI_run (n : Z) (y : double) : outcome (double * nat) :=
  if (n <? 2)%Z then
    Throws (MkExceptionObject "Order of modified bessel is > 2.")
  else if y =? 0.0 then
    Returns (0.0, O)
  else
    let toy := 2.0 / abs y in
    let margin := double2int (DIGITS * sqrt (int2double n)) in
    let start := (2 * (n + margin))%Z in
    let s := recurrence_loop n toy (Z.to_nat start)
               {| qip := 0.0; qi := 1.0; accumulator := 0.0; iterations := O |} in
    let accumulator := accumulator s * (ModifiedBesselI0 y / qi s) in
    if (y <? 0.0) && negb (Z.land n 1 =? 0)%Z then Returns (- accumulator, iterations s)
    else Returns (accumulator, iterations s).

Definition ModifiedBesselI (n : Z) (y : double) : outcome double :=
  fmap fst (ModifiedBesselI_run n y).

(** *** The order-0 kernel *)

(** The loop [for (int i = 2; sum.GetSum() < cap; ++i)] of
    [GenerateGaussianCoefficients].  It returns the taps and the
    warnings raised; [fuel] bounds the number of turns. *)
Fixpoint accumulate (fuel : nat) (op : GaussianDerivativeOperator)
    (et pixelVariance cap : double) (i : Z) (coeff : CoefficientVector)
    (sum : CompensatedSummation.t)
  : outcome (CoefficientVector * list Warning) :=
  if CompensatedSummation.GetSum sum <? cap then
    match fuel with
    | O => OutOfFuel
    | S fuel' =>
        b <- ModifiedBesselI i pixelVariance ;;
        let coeff := coeff ++ [et * b] in
        let coeff_i := nth (Z.to_nat i) coeff 0 in
        let sum := CompensatedSummation.AddElement sum (coeff_i * 2.0) in
        if coeff_i <? CompensatedSummation.GetSum sum * epsilon then
          Returns (coeff,
                   [KernelFailedToAccumulate
                      (cap - CompensatedSummation.GetSum sum) coeff_i])
        else if (m_MaximumKernelWidth op <? N.of_nat (length coeff))%N then
          Returns (coeff,
                   [KernelSizeExceeded (m_MaximumKernelWidth op) (length coeff)])
        else accumulate fuel' op et pixelVariance cap (i + 1)%Z coeff sum
    end
  else Returns (coeff, []).

(** [std::copy_n(first, n, result)] where [src] lists what the input
    iterator yields. *)
Definition copy_n (src : CoefficientVector) (n : nat) (dst : CoefficientVector)
  : CoefficientVector :=
  firstn n src ++ skipn n dst.

(** The statements after the loop: the sum is accumulated again from
    the last tap to the second, the taps are divided by it and the
    vector is made symmetric. *)
Definition normalize_and_mirror (coeff : CoefficientVector) : CoefficientVector :=
  let sum := CompensatedSummation.of_double
               (fold_left add (removelast (rev coeff)) 0.0) in
  let sum := CompensatedSummation.Scale sum 2.0 in
  let sum := CompensatedSummation.AddElement sum (nth 0 coeff 0) in
  let coeff := map (fun c => c / CompensatedSummation.GetSum sum) coeff in
  let s := (length coeff - 1)%nat in
  let coeff := repeat 0 s ++ coeff in
  copy_n (rev coeff) s coeff.

Definition GenerateGaussianCoefficients_fuel (fuel : nat)
    (op : GaussianDerivativeOperator)
  : outcome (CoefficientVector * list Warning) :=
  let pixelVariance := m_Variance op / (m_Spacing op * m_Spacing op) in
  let et := exp (- pixelVariance) in
  let cap := 1.0 - m_MaximumError op in
  let coeff := [et * ModifiedBesselI0 pixelVariance] in
  let sum := CompensatedSummation.of_double (nth 0 coeff 0) in
  let coeff := coeff ++ [et * ModifiedBesselI1 pixelVariance] in
  let sum := CompensatedSummation.AddElement sum (nth 1 coeff 0 * 2.0) in
  r <- accumulate fuel op et pixelVariance cap 2 coeff sum ;;
  Returns (normalize_and_mirror (fst r), snd r).

(** Every turn of the loop that does not leave it has at most
    [m_MaximumKernelWidth] taps, so this much fuel is never used up
    (see [GenerateGaussianCoefficients_returns]). *)
Definition GenerateGaussianCoefficients (op : GaussianDerivativeOperator)
  : outcome (CoefficientVector * list Warning) :=
  GenerateGaussianCoefficients_fuel (S (N.to_nat (m_MaximumKernelWidth op))) op.

(** *** The derivative kernel *)

(** [std::copy(src.begin(), src.end(), dst.begin() + at)]. *)
Definition copy_at (src dst : CoefficientVector) (at_ : nat) : CoefficientVector :=
  firstn at_ dst ++ src ++ skipn (at_ + length src) dst.

(** [std::fill] over the [count] positions that start at [first]. *)
Definition fill (v : CoefficientVector) (first count : nat) (x : double)
  : CoefficientVector :=
  firstn first v ++ repeat x count ++ skipn (first + count) v.

(** The inner loop over the taps of the derivative operator, for the
    position [i] of the padded kernel.  The outer loop starts at the
    radius, so the unsigned index [k] does not wrap around. *)
Definition correlate (paddedCoeff derivOp : CoefficientVector) (i : nat)
  : CompensatedSummation.t :=
  fold_left
    (fun conv j =>
       let k := (i + j - length derivOp / 2)%nat in
       CompensatedSummation.AddElement conv
         (nth k paddedCoeff 0 * nth (length derivOp - 1 - j) derivOp 0))
    (seq 0 (length derivOp))
    CompensatedSummation.empty.

(** The scale-space and spacing normalization. *)
Definition normalization (op : GaussianDerivativeOperator) : double :=
  let norm := 1.0 in
  let norm :=
    if m_NormalizeAcrossScale op
    then pow (m_Variance op) (int2double (Z.of_N (m_Order op)) / 2.0)
    else norm in
  norm / pow (m_Spacing op) (int2double (unsigned2int (m_Order op))).

(** The gaussian kernel with its clamped boundary.  The radius [N] of a
    derivative operator is at least 1; with [N = 0] the C++ code would
    write before the start of the vector. *)
Definition pad (coeff : CoefficientVector) (N : nat) : CoefficientVector :=
  let paddedCoeff := repeat 0 (length coeff + 4 * N - 2) in
  let paddedCoeff := copy_at coeff paddedCoeff (2 * N - 1) in
  let paddedCoeff := fill paddedCoeff 0 (2 * N) (hd 0 coeff) in
  fill paddedCoeff (length paddedCoeff - 2 * N) (2 * N) (last coeff 0).

Definition GenerateCoefficients (op : GaussianDerivativeOperator)
  : outcome (CoefficientVector * list Warning) :=
  r <- GenerateGaussianCoefficients op ;;
  let coeff := fst r in
  if (m_Order op =? 0)%N then Returns (coeff, snd r)
  else
    let norm := normalization op in
    let derivOp := DerivativeOperator (m_Order op) in
    let N := ((length derivOp - 1) / 2)%nat in
    let paddedCoeff := pad coeff N in
    let coeff :=
      fold_left
        (fun coeff i =>
           let conv := correlate paddedCoeff derivOp i in
           coeff ++ [norm * CompensatedSummation.GetSum conv])
        (seq N (length paddedCoeff - N - N))
        [] in
    Returns (coeff, snd r).

End Operator.

(** ** A stand-in for the C library *)

Module Reference.

(** [exp] by argument reduction and a Taylor polynomial.  It is not the
    C library's function bit for bit; it overflows to [infinity] and
    underflows to [0] where a binary64 [exp] does, and serves to run
    the model on concrete inputs. *)
Definition ln2_hi : double := 0x1.62e42fee00000p-1.
Definition ln2_lo : double := 0x1.a39ef35793c76p-33.
Definition inv_ln2 : double := 0x1.71547652b82fep+0.

Fixpoint horner (n : nat) (k : double) (r acc : double) : double :=
  match n with
  | O => acc
  | S n' => horner n' (k - 1) r (1 + acc * r / k)
  end.

Definition exp (x : double) : double :=
  if is_nan x then nan
  else if 709.782712893384 <? x then infinity
  else if x <? -745.2 then 0
  else
    let kf := x * inv_ln2 in
    let k := double2int (if kf <? 0 then kf - 0.5 else kf + 0.5) in
    let kd := int2double k in
    let r := (x - kd * ln2_hi) - kd * ln2_lo in
    Z.ldexp (horner 18 18 r 1) k.

(** [pow x y] for the exponents the operator uses: [y] a non-negative
    integer or half-integer.  Other exponents give NaN. *)
Fixpoint powi (x : double) (n : nat) : double :=
  match n with
  | O => 1
  | S n' => x * powi x n'
  end.

Definition pow (x y : double) : double :=
  let twice := double2int (y * 2) in
  if negb (int2double twice =? y * 2) || (twice <? 0)%Z then nan
  else
    let whole := powi x (Z.to_nat (twice / 2)) in
    if Z.even twice then whole else whole * sqrt x.

(** Central finite differences as a stand-in for the external
    [DerivativeOperator]: the stencil [1, -2, 1] applied [order / 2]
    times to the unit impulse and [0.5, 0, -0.5] once more for an odd
    order, which makes [2 * ((order + 1) / 2) + 1] taps. *)
Fixpoint add_vectors (a b : CoefficientVector) : CoefficientVector :=
  match a, b with
  | [], _ => b
  | _, [] => a
  | x :: a', y :: b' => (x + y) :: add_vectors a' b'
  end.

Fixpoint convolve (a b : CoefficientVector) : CoefficientVector :=
  match a with
  | [] => []
  | x :: a' => add_vectors (map (mul x) b) (0 :: convolve a' b)
  end.

Definition DerivativeOperator (order : N) : CoefficientVector :=
  let second := Nat.iter (N.to_nat (order / 2)) (convolve [1; -2; 1]) [1] in
  if N.odd order then convolve [0.5; 0; -0.5] second else second.

(** Rounding toward minus infinity, for [Math::Floor]; NaN and the
    infinities, on which the conversion is undefined, give [0]. *)
Definition Floor (x : double) : Z :=
  match Prim2SF x with
  | S754_finite s m e => Z.shiftl (if s then Z.neg m else Z.pos m) e
  | _ => 0%Z
  end.

End Reference.

(** ** Linear interpolation of vector images *)

(** The model follows [itkVectorLinearInterpolateImageFunction.hxx].
    An index is the list of its [ImageDimension] components, a pixel
    the list of its [Dimension] components, taken as doubles.  The image
    is the function [GetPixel]; [m_StartIndex] and [m_EndIndex] are the
    bounds the base class keeps. *)
Record VectorLinearInterpolateImageFunction : Type := {
  ImageDimension : nat;
  Dimension : nat;
  m_StartIndex : list Z;
  m_EndIndex : list Z;
  GetPixel : list Z -> list double
}.

(** [m_Neighbors = 1 << ImageDimension]. *)
Definition m_Neighbors (f : VectorLinearInterpolateImageFunction) : nat :=
  Nat.shiftl 1 (ImageDimension f).

Section Interpolation.

(** [Math::Floor<IndexValueType>] of [itkMath.h]. *)
Variable Floor : double -> Z.

Variable f : VectorLinearInterpolateImageFunction.

(** The loop over [dim] that finds one neighbor and its overlap.  The
    components of [neighIndex] are written in increasing order, so the
    index is built by appending them. *)
Fixpoint neighbor_loop (baseIndex : list Z) (distance : list double)
    (dims : list nat) (upper : N) (neighIndex : list Z) (overlap : double)
  : list Z * double :=
  match dims with
  | [] => (neighIndex, overlap)
  | dim :: dims' =>
      if negb (N.land upper 1 =? 0)%N then
        let n := (nth dim baseIndex 0 + 1)%Z in
        let n := Z.min n (nth dim (m_EndIndex f) 0%Z) in
        neighbor_loop baseIndex distance dims' (N.shiftr upper 1)
          (neighIndex ++ [n]) (overlap * nth dim distance 0)
      else
        let n := nth dim baseIndex 0%Z in
        let n := Z.max n (nth dim (m_StartIndex f) 0%Z) in
        neighbor_loop baseIndex distance dims' (N.shiftr upper 1)
          (neighIndex ++ [n]) (overlap * (1.0 - nth dim distance 0))
  end.

(** [output[k] += overlap * input[k]] for every component [k]. *)
Definition accumulate_pixel (output : list double) (overlap : double)
    (input : list double) : list double :=
  map (fun k => nth k output 0 + overlap * nth k input 0)
    (seq 0 (Dimension f)).

(** The loop over [counter], left as soon as the overlaps add up to
    one. *)
Fixpoint neighbors_loop (baseIndex : list Z) (distance : list double)
    (counters : list nat) (output : list double) (totalOverlap : double)
  : list double :=
  match counters with
  | [] => output
  | counter :: counters' =>
      let '(neighIndex, overlap) :=
        neighbor_loop baseIndex distance (seq 0 (ImageDimension f))
          (N.of_nat counter) [] 1.0 in
      let '(output, totalOverlap) :=
        if negb (overlap =? 0.0) then
          (accumulate_pixel output overlap (GetPixel f neighIndex),
           totalOverlap + overlap)
        else (output, totalOverlap) in
      if totalOverlap =? 1.0 then output
      else neighbors_loop baseIndex distance counters' output totalOverlap
  end.

Definition base_index (index : list double) : list Z :=
  map (fun dim => Floor (nth dim index 0)) (seq 0 (ImageDimension f)).

Definition distances (index : list double) : list double :=
  map (fun dim =>
         nth dim index 0 - int2double (nth dim (base_index index) 0%Z))
    (seq 0 (ImageDimension f)).

Definition EvaluateAtContinuousIndex (index : list double) : list double :=
  neighbors_loop (base_index index) (distances index)
    (seq 0 (m_Neighbors f)) (repeat 0 (Dimension f)) 0.0.

(** An index within the bounds of the image. *)
Definition inside (idx : list Z) : Prop :=
  length idx = ImageDimension f
  /\ forall dim, (dim < ImageDimension f)%nat ->
       (nth dim (m_StartIndex f) 0 <= nth dim idx 0
        <= nth dim (m_EndIndex f) 0)%Z.

End Interpolation.

(** The same function over another image. *)
Definition SetInputImage (image : list Z -> list double)
    (f : VectorLinearInterpolateImageFunction)
  : VectorLinearInterpolateImageFunction :=
  {| ImageDimension := ImageDimension f;
     Dimension := Dimension f;
     m_StartIndex := m_StartIndex f;
     m_EndIndex := m_EndIndex f;
     GetPixel := image |}.

(** ** Vocabulary of the properties *)

(** The variance in pixels, the seed taps [coeff[0]] and [coeff[1]] and
    the sum with which [GenerateGaussianCoefficients] enters its loop. *)
Definition pixel_variance (op : GaussianDerivativeOperator) : double :=
  m_Variance op / (m_Spacing op * m_Spacing op).

Definition seeds (exp : double -> double) (op : GaussianDerivativeOperator)
  : CoefficientVector :=
  let et := exp (- pixel_variance op) in
  [et * ModifiedBesselI0 exp (pixel_variance op);
   et * ModifiedBesselI1 exp (pixel_variance op)].

Definition seed_sum (exp : double -> double) (op : GaussianDerivativeOperator)
  : CompensatedSummation.t :=
  CompensatedSummation.AddElement
    (CompensatedSummation.of_double (nth 0 (seeds exp op) 0))
    (nth 1 (seeds exp op) 0 * 2.0).

(** [SetMaximumKernelWidth]. *)
Definition SetMaximumKernelWidth (w : N) (op : GaussianDerivativeOperator)
  : GaussianDerivativeOperator :=
  {| m_NormalizeAcrossScale := m_NormalizeAcrossScale op;
     m_Variance := m_Variance op;
     m_MaximumError := m_MaximumError op;
     m_MaximumKernelWidth := w;
     m_Order := m_Order op;
     m_Spacing := m_Spacing op |}.

Definition is_precision (w : Warning) : bool :=
  match w with
  | KernelFailedToAccumulate _ _ => true
  | KernelSizeExceeded _ _ => false
  end.

(** What the accumulation loop leaves behind when it starts from [coeff]:
    the taps it was given followed by the new ones [rest], and
    - no warning, and a size within the maximum width unless no tap was
      added, or
    - the precision warning, or
    - the truncation warning, and a size one above the maximum width
      (or a single new tap). *)
Definition loop_post (op : GaussianDerivativeOperator)
    (coeff rest : CoefficientVector) (w : list Warning) : Prop :=
  let W := N.to_nat (m_MaximumKernelWidth op) in
  let size := length (coeff ++ rest) in
  (w = [] /\ (size <= Nat.max (length coeff) W)%nat)
  \/ ((exists r c, w = [KernelFailedToAccumulate r c])
      /\ (size <= Nat.max (S (length coeff)) (S W))%nat)
  \/ (w = [KernelSizeExceeded (m_MaximumKernelWidth op) size]
      /\ size = Nat.max (S (length coeff)) (S W)).

(** *** The derivative kernel in the words of the specification *)

(** The scale factor: [variance^(k/2)] when normalizing across scale and
    [1] otherwise, divided by [spacing^k], for the order [k]. *)
Definition spec_norm (pow : double -> double -> double)
    (op : GaussianDerivativeOperator) : double :=
  let k := int2double (Z.of_N (m_Order op)) in
  (if m_NormalizeAcrossScale op then pow (m_Variance op) (k / 2) else 1)
  / pow (m_Spacing op) k.

(** The Gaussian kernel with [2N - 1] replicated edge taps on each side. *)
Definition spec_pad (gaussian : CoefficientVector) (N : nat) : CoefficientVector :=
  repeat (hd 0 gaussian) (2 * N - 1) ++ gaussian
    ++ repeat (last gaussian 0) (2 * N - 1).

(** The correlation, at output position [p], of the padded kernel with
    the reversed derivative operator, in compensated summation. *)
Definition spec_correlation (padded derivOp : CoefficientVector) (p : nat)
  : CompensatedSummation.t :=
  fold_left
    (fun conv xy => CompensatedSummation.AddElement conv (fst xy * snd xy))
    (combine (skipn p padded) (rev derivOp))
    CompensatedSummation.empty.

Definition spec_derivative_kernel (pow : double -> double -> double)
    (op : GaussianDerivativeOperator) (gaussian derivOp : CoefficientVector)
  : CoefficientVector :=
  let N := ((length derivOp - 1) / 2)%nat in
  map (fun p =>
         spec_norm pow op
         * CompensatedSummation.GetSum
             (spec_correlation (spec_pad gaussian N) derivOp p))
      (seq 0 (length gaussian + 2 * N - 2)).

(** ** Settings of the examples *)

(** A setting whose accumulation is slow: variance 100 on a unit grid. *)
Definition slow_operator (width : N) : GaussianDerivativeOperator :=
  {| m_NormalizeAcrossScale := false;
     m_Variance := 100.0;
     m_MaximumError := 0.01;
     m_MaximumKernelWidth := width;
     m_Order := 0;
     m_Spacing := 1.0 |}.

(** A setting for derivative kernels: variance 4 on a unit grid. *)
Definition derivative_operator (order : N) : GaussianDerivativeOperator :=
  {| m_NormalizeAcrossScale := true;
     m_Variance := 4.0;
     m_MaximumError := 0.01;
     m_MaximumKernelWidth := 30;
     m_Order := order;
     m_Spacing := 1.0 |}.

(** A variance of 1000 on a unit grid (a standard deviation of about
    31.6 pixels). *)
Definition wide_operator : GaussianDerivativeOperator :=
  {| m_NormalizeAcrossScale := false;
     m_Variance := 1000.0;
     m_MaximumError := 0.01;
     m_MaximumKernelWidth := 30;
     m_Order := 0;
     m_Spacing := 1.0 |}.

(** A 5 x 5 image of two components, and the same image with NaN
    outside its bounds. *)
Definition ramp (idx : list Z) : list double :=
  [int2double (nth 0 idx 0%Z) + 10.0 * int2double (nth 1 idx 0%Z); 1.0].

Definition ramp_function : VectorLinearInterpolateImageFunction :=
  {| ImageDimension := 2;
     Dimension := 2;
     m_StartIndex := [0; 0]%Z;
     m_EndIndex := [4; 4]%Z;
     GetPixel := ramp |}.

Definition fenced_ramp (idx : list Z) : list double :=
  if ((0 <=? nth 0 idx 0) && (nth 0 idx 0 <=? 4)
      && (0 <=? nth 1 idx 0) && (nth 1 idx 0 <=? 4))%Z
  then ramp idx else [nan; nan].

(** A number that is neither NaN nor a zero. *)
Definition signed (x : double) : Prop :=
  match Prim2SF x with
  | S754_infinity _ | S754_finite _ _ _ => True
  | S754_zero _ | S754_nan => False
  end.

(** The tap of the half kernel at distance [i] from the centre, before
    the normalization: the Bessel function of order [i] at the variance
    in pixels, damped by [exp (- variance)]. *)
Definition bessel_term (exp : double -> double)
    (op : GaussianDerivativeOperator) (i : nat) : double :=
  let et := exp (- pixel_variance op) in
  match i with
  | O => et * ModifiedBesselI0 exp (pixel_variance op)
  | S O => et * ModifiedBesselI1 exp (pixel_variance op)
  | _ =>
      match ModifiedBesselI exp (Z.of_nat i) (pixel_variance op) with
      | Returns b => et * b
      | _ => nan
      end
  end.

(** The sum by which [GenerateGaussianCoefficients] divides the taps. *)
Definition normalizing_sum (coeff : CoefficientVector) : double :=
  CompensatedSummation.GetSum
    (CompensatedSummation.AddElement
       (CompensatedSummation.Scale
          (CompensatedSummation.of_double
             (fold_left add (removelast (rev coeff)) 0.0))
          2.0)
       (nth 0 coeff 0)).

(** [SetSpacing]. *)
Definition SetSpacing (spacing : double) (op : GaussianDerivativeOperator)
  : GaussianDerivativeOperator :=
  {| m_NormalizeAcrossScale := m_NormalizeAcrossScale op;
     m_Variance := m_Variance op;
     m_MaximumError := m_MaximumError op;
     m_MaximumKernelWidth := m_MaximumKernelWidth op;
     m_Order := m_Order op;
     m_Spacing := spacing |}.

(** The half-kernel size at which the width test stops the loop: the
    first size above the maximum width, and three taps at least. *)
Definition truncated_size (op : GaussianDerivativeOperator) : nat :=
  Nat.max 3 (S (N.to_nat (m_MaximumKernelWidth op))).

(** * Properties *)

(** ** The general recurrence entry point *)

Section BesselProperties.

Variable exp : double -> double.

Lemma ModifiedBesselI_run_returns (n : Z) (y : double) :
  (2 <= n)%Z -> exists v k, ModifiedBesselI_run exp n y = Returns (v, k).
Proof.
  intros Hn. unfold ModifiedBesselI_run.
  destruct (Z.ltb_spec n 2) as [Hlt | _]; [lia |].
  destruct (y =? 0.0); [now eexists; eexists |].
  destruct ((y <? 0.0) && negb (Z.land n 1 =? 0)%Z); now eexists; eexists.
Qed.

Lemma ModifiedBesselI_returns (n : Z) (y : double) :
  (2 <= n)%Z -> exists v, ModifiedBesselI exp n y = Returns v.
Proof.
  intros Hn. destruct (ModifiedBesselI_run_returns n y Hn) as (v & k & E).
  exists v. unfold ModifiedBesselI, fmap. now rewrite E.
Qed.

(** C4: for every [y] and every [n < 2] the call throws and returns
    no value. *)
Theorem ModifiedBesselI_low_order_throws (n : Z) (y : double) :
  (n < 2)%Z ->
  ModifiedBesselI exp n y
    = Throws (MkExceptionObject "Order of modified bessel is > 2.")
  /\ forall v, ModifiedBesselI exp n y <> Returns v.
Proof.
  intros Hn.
  assert (E : ModifiedBesselI exp n y
              = Throws (MkExceptionObject "Order of modified bessel is > 2.")).
  { unfold ModifiedBesselI, ModifiedBesselI_run, fmap.
    destruct (Z.ltb_spec n 2) as [_ | Hge]; [reflexivity | lia]. }
  split; [exact E |]. intros v Hv. rewrite E in Hv. discriminate Hv.
Qed.

(** C8: for every [n >= 2] and a zero argument (of either sign) the
    call returns [0.0], and the loop of the recurrence has run no turn. *)
Theorem ModifiedBesselI_zero_argument (n : Z) (y : double) :
  (2 <= n)%Z -> (y =? 0.0) = true ->
  ModifiedBesselI_run exp n y = Returns (0.0, O)
  /\ ModifiedBesselI exp n y = Returns 0.0.
Proof.
  intros Hn Hy.
  assert (E : ModifiedBesselI_run exp n y = Returns (0.0, O)).
  { unfold ModifiedBesselI_run.
    destruct (Z.ltb_spec n 2) as [Hlt | _]; [lia |]. now rewrite Hy. }
  split; [exact E |]. unfold ModifiedBesselI, fmap. now rewrite E.
Qed.

(** C9: the test on the order comes first; orders 0 and 1 throw at a
    zero argument as well. *)
Theorem ModifiedBesselI_order_test_precedes_zero_test :
  ModifiedBesselI exp 0 0.0
    = Throws (MkExceptionObject "Order of modified bessel is > 2.")
  /\ ModifiedBesselI exp 1 0.0
    = Throws (MkExceptionObject "Order of modified bessel is > 2.")
  /\ ModifiedBesselI exp 0 0.0 <> Returns 0.0
  /\ ModifiedBesselI exp 1 0.0 <> Returns 0.0.
Proof.
  repeat split; try reflexivity; discriminate.
Qed.

End BesselProperties.

Lemma ModifiedBesselI_zero_argument_witness :
  ModifiedBesselI_run Reference.exp 2 0.0 = Returns (0.0, O)
  /\ ModifiedBesselI Reference.exp 2 0.0 = Returns 0.0.
Proof.
  apply (ModifiedBesselI_zero_argument Reference.exp 2 0.0); [lia | reflexivity].
Defined.

Lemma ModifiedBesselI_low_order_throws_witness :
  ModifiedBesselI Reference.exp 1 5.0
    = Throws (MkExceptionObject "Order of modified bessel is > 2.")
  /\ forall v, ModifiedBesselI Reference.exp 1 5.0 <> Returns v.
Proof.
  apply (ModifiedBesselI_low_order_throws Reference.exp 1 5.0). lia.
Defined.

(** ** Signs in binary64 arithmetic *)

Section Signs.

Lemma Prim2SF_nan (x : double) : Prim2SF x = S754_nan -> x = nan.
Proof. intros H. apply Prim2SF_inj. rewrite H. reflexivity. Qed.

Lemma Prim2SF_zero (x : double) (s : bool) :
  Prim2SF x = S754_zero s -> x = if s then neg_zero else zero.
Proof. intros H. apply Prim2SF_inj. rewrite H. now destruct s. Qed.

Lemma opp_involutive (x : double) : - - x = x.
Proof.
  apply Prim2SF_inj. rewrite !opp_spec.
  destruct (Prim2SF x) as [s | s | | s m e]; simpl;
    rewrite ?negb_involutive; reflexivity.
Qed.

Lemma abs_opp (x : double) : abs (- x) = abs x.
Proof.
  apply Prim2SF_inj. rewrite !abs_spec, opp_spec.
  now destruct (Prim2SF x).
Qed.

Lemma binary_round_aux_opp (s : bool) (m e : Z) (l : location) :
  SFopp (binary_round_aux prec emax s m e l)
  = binary_round_aux prec emax (negb s) m e l.
Proof.
  unfold binary_round_aux.
  destruct (shr_fexp prec emax m e l) as [mrs' e'].
  destruct (shr_fexp prec emax _ e' loc_Exact) as [mrs'' e''].
  destruct (shr_m mrs''); [reflexivity | | reflexivity].
  now destruct (Z.leb e'' (emax - prec)).
Qed.

Lemma div_opp_l (x c : double) : (- x) / c = - (x / c).
Proof.
  apply Prim2SF_inj. rewrite opp_spec, !div_spec, opp_spec.
  unfold SF64div, SFdiv.
  destruct (Prim2SF x) as [sx | sx | | sx mx ex],
           (Prim2SF c) as [sc | sc | | sc mc ec];
    cbn [SFopp]; try reflexivity;
    try (now destruct sx, sc).
  destruct (SFdiv_core_binary prec emax (Z.pos mx) ex (Z.pos mc) ec)
    as [[mz ez] lz].
  rewrite binary_round_aux_opp. now destruct sx, sc.
Qed.

Lemma mul_opp_opp (a : double) : (- a) * (- a) = a * a.
Proof.
  apply Prim2SF_inj. rewrite !mul_spec, opp_spec.
  unfold SF64mul, SFmul.
  destruct (Prim2SF a) as [s | s | | s m e]; cbn [SFopp];
    try reflexivity; now destruct s.
Qed.

Lemma div_nan_r (x : double) : x / nan = nan.
Proof.
  apply Prim2SF_inj. rewrite div_spec.
  change (Prim2SF nan) with S754_nan.
  unfold SF64div, SFdiv. now destruct (Prim2SF x).
Qed.

Lemma ltb_opp_zero (y : double) :
  signed y -> (- y <? 0.0) = negb (y <? 0.0).
Proof.
  unfold signed. rewrite !ltb_spec, opp_spec.
  change (Prim2SF 0.0) with (S754_zero false).
  destruct (Prim2SF y) as [s | s | | s m e]; try contradiction;
    intros _; now destruct s.
Qed.

Lemma SFcompare_refl (v : spec_float) :
  v <> S754_nan -> SFcompare v v = Some Eq.
Proof.
  destruct v as [s | s | | s m e]; intros Hv; try congruence;
    try reflexivity; cbn [SFcompare]; destruct s;
    rewrite ?Z.compare_refl, ?Pos.compare_cont_refl; reflexivity.
Qed.

Lemma is_nan_false (x : double) :
  is_nan x = false -> Prim2SF x <> S754_nan.
Proof.
  intros Hx Hnan. apply Prim2SF_nan in Hnan. subst x. discriminate Hx.
Qed.

Lemma eqb_opp_refl (x : double) :
  is_nan x = false -> (- x =? - x) = true.
Proof.
  intros Hx. apply is_nan_false in Hx.
  rewrite eqb_spec, opp_spec. unfold SFeqb.
  rewrite SFcompare_refl; [reflexivity |].
  destruct (Prim2SF x); simpl; congruence.
Qed.

Lemma eqb_refl (x : double) : is_nan x = false -> (x =? x) = true.
Proof.
  intros Hx. apply is_nan_false in Hx.
  rewrite eqb_spec. unfold SFeqb. now rewrite SFcompare_refl.
Qed.

End Signs.

(** ** Parity of [ModifiedBesselI1] *)

Section Parity.

Variable exp : double -> double.

(** The accumulator depends on [y] through [abs y] and the square of
    [y / 3.75] only. *)
Lemma ModifiedBesselI1_accumulator_opp (y : double) :
  ModifiedBesselI1_accumulator exp (- y) = ModifiedBesselI1_accumulator exp y.
Proof.
  unfold ModifiedBesselI1_accumulator.
  rewrite abs_opp, div_opp_l, mul_opp_opp. reflexivity.
Qed.

(** Away from zero and NaN the two sides are the same double, bit for
    bit. *)
Lemma ModifiedBesselI1_opp (y : double) :
  signed y -> ModifiedBesselI1 exp (- y) = - ModifiedBesselI1 exp y.
Proof.
  intros Hy. unfold ModifiedBesselI1.
  rewrite ModifiedBesselI1_accumulator_opp, ltb_opp_zero by exact Hy.
  destruct (y <? 0.0); cbn [negb]; [now rewrite opp_involutive | reflexivity].
Qed.

Lemma ModifiedBesselI1_nan : ModifiedBesselI1 exp nan = nan.
Proof.
  unfold ModifiedBesselI1, ModifiedBesselI1_accumulator.
  change (abs nan) with nan. change (sqrt nan) with nan.
  rewrite (div_nan_r (exp nan)). reflexivity.
Qed.

(** C7: [ModifiedBesselI1(-y) == -ModifiedBesselI1(y)] for every [y] at
    which the function yields a number (a NaN is equal to nothing, itself
    included). *)
Theorem ModifiedBesselI1_odd (y : double) :
  is_nan (ModifiedBesselI1 exp y) = false ->
  (ModifiedBesselI1 exp (- y) =? - ModifiedBesselI1 exp y) = true.
Proof.
  intros Hnum.
  destruct (Prim2SF y) as [s | s | | s m e] eqn:Hy.
  - apply Prim2SF_zero in Hy. subst y. now destruct s.
  - rewrite ModifiedBesselI1_opp by (unfold signed; now rewrite Hy).
    now apply eqb_opp_refl.
  - apply Prim2SF_nan in Hy. subst y.
    rewrite ModifiedBesselI1_nan in Hnum. discriminate Hnum.
  - rewrite ModifiedBesselI1_opp by (unfold signed; now rewrite Hy).
    now apply eqb_opp_refl.
Qed.

End Parity.

Lemma ModifiedBesselI1_odd_witness :
  (ModifiedBesselI1 Reference.exp (- 5.0)
   =? - ModifiedBesselI1 Reference.exp 5.0) = true.
Proof.
  apply (ModifiedBesselI1_odd Reference.exp 5.0). reflexivity.
Defined.

(** ** The order-0 kernel *)

Section KernelProperties.

Variable exp : double -> double.

Lemma accumulate_unfold fuel op et pv cap i coeff sum :
  accumulate exp fuel op et pv cap i coeff sum =
  if CompensatedSummation.GetSum sum <? cap then
    match fuel with
    | O => OutOfFuel
    | S fuel' =>
        b <- ModifiedBesselI exp i pv ;;
        let coeff := coeff ++ [et * b] in
        let coeff_i := nth (Z.to_nat i) coeff 0 in
        let sum := CompensatedSummation.AddElement sum (coeff_i * 2.0) in
        if coeff_i <? CompensatedSummation.GetSum sum * epsilon then
          Returns (coeff,
                   [KernelFailedToAccumulate
                      (cap - CompensatedSummation.GetSum sum) coeff_i])
        else if (m_MaximumKernelWidth op <? N.of_nat (length coeff))%N then
          Returns (coeff,
                   [KernelSizeExceeded (m_MaximumKernelWidth op) (length coeff)])
        else accumulate exp fuel' op et pv cap (i + 1)%Z coeff sum
    end
  else Returns (coeff, []).
Proof. destruct fuel; reflexivity. Qed.

Lemma accumulate_returns op et pv cap :
  forall fuel i coeff sum,
    (2 <= i)%Z -> (1 <= fuel)%nat ->
    (N.to_nat (m_MaximumKernelWidth op) + 2 <= length coeff + fuel)%nat ->
    exists rest w,
      accumulate exp fuel op et pv cap i coeff sum = Returns (coeff ++ rest, w)
      /\ loop_post op coeff rest w.
Proof.
  induction fuel as [| fuel IH]; intros i coeff sum Hi Hfuel Hinv; [lia |].
  rewrite accumulate_unfold.
  destruct (CompensatedSummation.GetSum sum <? cap).
  2:{ exists [], []. split; [now rewrite app_nil_r |].
      unfold loop_post. rewrite length_app. simpl. left. split; [reflexivity | lia]. }
  destruct (ModifiedBesselI_returns exp i pv Hi) as [b Hb].
  rewrite Hb. cbn [bind].
  set (coeff' := coeff ++ [et * b]).
  assert (Hlen : length coeff' = S (length coeff))
    by (unfold coeff'; rewrite length_app; simpl; lia).
  cbv zeta.
  destruct (nth (Z.to_nat i) coeff' 0 <? _).
  { exists [et * b]. eexists. split; [reflexivity |].
    unfold loop_post. fold coeff'. right; left. split; [eauto | lia]. }
  destruct (N.ltb_spec (m_MaximumKernelWidth op) (N.of_nat (length coeff')))
    as [Hwide | Hfits].
  { exists [et * b]. eexists. split; [reflexivity |].
    unfold loop_post. fold coeff'. right; right. split; [reflexivity | lia]. }
  destruct (IH (i + 1)%Z coeff'
              (CompensatedSummation.AddElement sum
                 (nth (Z.to_nat i) coeff' 0 * 2.0)))
    as (rest & w & Hrun & Hpost); [lia | lia | lia |].
  exists ((et * b) :: rest), w.
  assert (Happ : coeff ++ (et * b) :: rest = coeff' ++ rest)
    by (unfold coeff'; now rewrite <- app_assoc).
  unfold loop_post in *. rewrite Happ. split; [exact Hrun |].
  cbv zeta in Hpost.
  destruct Hpost as [[Hw Hsize] | [[Hw Hsize] | [Hw Hsize]]].
  - left. split; [exact Hw | lia].
  - right; left. split; [exact Hw | lia].
  - right; right. split; [exact Hw | lia].
Qed.

(** Whatever the fuel, a run that returns has not dropped a tap. *)
Lemma accumulate_grows op et pv cap :
  forall fuel i coeff sum c w,
    accumulate exp fuel op et pv cap i coeff sum = Returns (c, w) ->
    (length coeff <= length c)%nat.
Proof.
  induction fuel as [| fuel IH]; intros i coeff sum c w;
    rewrite accumulate_unfold;
    destruct (CompensatedSummation.GetSum sum <? cap);
    try discriminate; try (intros [= <- <-]; lia).
  destruct (ModifiedBesselI exp i pv) as [b | e |]; cbn [bind]; try discriminate.
  cbv zeta.
  assert (Hlen : length (coeff ++ [et * b]) = S (length coeff))
    by (rewrite length_app; simpl; lia).
  destruct (nth (Z.to_nat i) (coeff ++ [et * b]) 0 <? _);
    [intros [= <- <-]; lia |].
  destruct (_ <? _)%N; [intros [= <- <-]; lia |].
  intros Hrun. apply IH in Hrun. lia.
Qed.

(** A run that returns is not changed by more fuel. *)
Lemma accumulate_more_fuel op et pv cap :
  forall fuel fuel' i coeff sum r,
    (fuel <= fuel')%nat ->
    accumulate exp fuel op et pv cap i coeff sum = Returns r ->
    accumulate exp fuel' op et pv cap i coeff sum = Returns r.
Proof.
  induction fuel as [| fuel IH]; intros fuel' i coeff sum r Hle;
    rewrite (accumulate_unfold fuel'), accumulate_unfold;
    destruct (CompensatedSummation.GetSum sum <? cap);
    try discriminate; try (intros H; exact H).
  destruct fuel' as [| fuel']; [lia |].
  destruct (ModifiedBesselI exp i pv) as [b | e |]; cbn [bind];
    try (intros H; exact H).
  cbv zeta.
  destruct (nth (Z.to_nat i) (coeff ++ [et * b]) 0 <? _);
    [intros H; exact H |].
  destruct (_ <? _)%N; [intros H; exact H |].
  apply IH. lia.
Qed.

(** Two runs that differ in the maximum width only: either they agree,
    or the narrower one was truncated, at a size the wider one reaches
    too. *)
Lemma accumulate_narrower op op' et pv cap :
  (m_MaximumKernelWidth op <= m_MaximumKernelWidth op')%N ->
  forall fuel fuel' i coeff sum c w c' w',
    accumulate exp fuel op et pv cap i coeff sum = Returns (c, w) ->
    accumulate exp fuel' op' et pv cap i coeff sum = Returns (c', w') ->
    (c = c' /\ w = w')
    \/ (w = [KernelSizeExceeded (m_MaximumKernelWidth op) (length c)]
        /\ (length c <= length c')%nat).
Proof.
  intros Hle.
  induction fuel as [| fuel IH]; intros fuel' i coeff sum c w c' w';
    rewrite (accumulate_unfold fuel'), accumulate_unfold;
    destruct (CompensatedSummation.GetSum sum <? cap);
    try discriminate;
    try (intros [= <- <-] [= <- <-]; now left).
  destruct fuel' as [| fuel']; [intros _; discriminate |].
  destruct (ModifiedBesselI exp i pv) as [b | e |]; cbn [bind]; try discriminate.
  cbv zeta.
  destruct (nth (Z.to_nat i) (coeff ++ [et * b]) 0 <? _);
    [intros [= <- <-] [= <- <-]; now left |].
  destruct (N.ltb_spec (m_MaximumKernelWidth op)
              (N.of_nat (length (coeff ++ [et * b])))) as [Hwide | Hfits].
  - intros [= <- <-].
    destruct (_ <? _)%N.
    + intros [= <- <-]. right. split; [reflexivity | lia].
    + intros Hrun'. apply accumulate_grows in Hrun'. right.
      split; [reflexivity | lia].
  - destruct (N.ltb_spec (m_MaximumKernelWidth op')
                (N.of_nat (length (coeff ++ [et * b])))) as [Hwide' | _];
      [lia |].
    apply IH.
Qed.

(** Lengths after normalization and mirroring. *)
Lemma copy_n_length src n dst :
  (n <= length src)%nat -> (n <= length dst)%nat ->
  length (copy_n src n dst) = length dst.
Proof.
  intros Hs Hd. unfold copy_n.
  rewrite length_app, length_firstn, length_skipn. lia.
Qed.

Lemma normalize_and_mirror_length coeff :
  (1 <= length coeff)%nat ->
  length (normalize_and_mirror coeff) = (2 * length coeff - 1)%nat.
Proof.
  intros H. unfold normalize_and_mirror.
  rewrite copy_n_length;
    rewrite ?length_rev, ?length_app, ?repeat_length, ?length_map; lia.
Qed.

(** The insertion of [s] zeros and the copy from the reversed end put
    the reversed tail in front of the taps. *)
Lemma mirror_spec (c : CoefficientVector) :
  copy_n (rev (repeat 0 (length c - 1) ++ c)) (length c - 1)
    (repeat 0 (length c - 1) ++ c)
  = rev (tl c) ++ c.
Proof.
  destruct c as [| x t]; [reflexivity |].
  cbn [length tl]. replace (S (length t) - 1)%nat with (length t) by lia.
  unfold copy_n.
  rewrite rev_app_distr. cbn [rev]. rewrite <- app_assoc.
  rewrite firstn_app, length_rev, Nat.sub_diag, firstn_O, app_nil_r.
  rewrite firstn_all2 by (rewrite length_rev; lia).
  rewrite skipn_app, repeat_length, Nat.sub_diag.
  rewrite skipn_all2 by (rewrite repeat_length; lia).
  reflexivity.
Qed.

Lemma normalize_and_mirror_palindrome (coeff : CoefficientVector) :
  rev (normalize_and_mirror coeff) = normalize_and_mirror coeff.
Proof.
  unfold normalize_and_mirror. rewrite mirror_spec.
  destruct (map _ coeff) as [| x t]; [reflexivity |].
  cbn [tl]. rewrite rev_app_distr, rev_involutive. cbn [rev].
  now rewrite <- app_assoc.
Qed.

(** Tap [i] and tap [length - 1 - i] of the kernel are the same double. *)
Lemma normalize_and_mirror_symmetric (coeff : CoefficientVector) (i : nat) :
  (i < length (normalize_and_mirror coeff))%nat ->
  nth i (normalize_and_mirror coeff) 0
  = nth (length (normalize_and_mirror coeff) - 1 - i)
      (normalize_and_mirror coeff) 0.
Proof.
  intros Hi. rewrite <- (normalize_and_mirror_palindrome coeff) at 1.
  rewrite rev_nth by exact Hi. f_equal. lia.
Qed.

Lemma GenerateGaussianCoefficients_fuel_unfold fuel op :
  GenerateGaussianCoefficients_fuel exp fuel op =
  r <- accumulate exp fuel op (exp (- pixel_variance op)) (pixel_variance op)
         (1.0 - m_MaximumError op) 2 (seeds exp op) (seed_sum exp op) ;;
  Returns (normalize_and_mirror (fst r), snd r).
Proof. reflexivity. Qed.

(** The call returns for every setting: it never throws and the fuel
    suffices.  The half kernel is the two seeds followed by the taps of
    the loop. *)
Lemma GenerateGaussianCoefficients_returns op :
  exists rest w,
    accumulate exp (S (N.to_nat (m_MaximumKernelWidth op))) op
      (exp (- pixel_variance op)) (pixel_variance op)
      (1.0 - m_MaximumError op) 2 (seeds exp op) (seed_sum exp op)
      = Returns (seeds exp op ++ rest, w)
    /\ GenerateGaussianCoefficients exp op
       = Returns (normalize_and_mirror (seeds exp op ++ rest), w)
    /\ loop_post op (seeds exp op) rest w.
Proof.
  unfold GenerateGaussianCoefficients.
  rewrite GenerateGaussianCoefficients_fuel_unfold.
  destruct (accumulate_returns op (exp (- pixel_variance op)) (pixel_variance op)
              (1.0 - m_MaximumError op) (S (N.to_nat (m_MaximumKernelWidth op)))
              2%Z (seeds exp op) (seed_sum exp op))
    as (rest & w & Hrun & Hpost); [lia | lia | simpl; lia |].
  exists rest, w. rewrite Hrun. now repeat split.
Qed.

(** The maximum width bounds the kernel: at most
    [max 3 (m_MaximumKernelWidth + 1)] taps before mirroring. *)
Lemma GenerateGaussianCoefficients_length_bound op kernel w :
  GenerateGaussianCoefficients exp op = Returns (kernel, w) ->
  (length kernel
   <= 2 * Nat.max 3 (S (N.to_nat (m_MaximumKernelWidth op))) - 1)%nat.
Proof.
  intros E.
  destruct (GenerateGaussianCoefficients_returns op)
    as (rest & w' & _ & E' & Hpost).
  assert (Hk : kernel = normalize_and_mirror (seeds exp op ++ rest))
    by congruence.
  assert (Hseeds : length (seeds exp op) = 2%nat) by reflexivity.
  rewrite Hk, normalize_and_mirror_length by (rewrite length_app; lia).
  unfold loop_post in Hpost. cbv zeta in Hpost. rewrite Hseeds in Hpost.
  destruct Hpost as [[_ Hs] | [[_ Hs] | [_ Hs]]]; lia.
Qed.

(** C10: for every setting the call returns a kernel of odd length
    [2 * len - 1] with [len >= 2], hence of at least 3 taps; the half
    kernel begins with the two seed taps. *)
Theorem GenerateGaussianCoefficients_odd_length op :
  exists rest w,
    GenerateGaussianCoefficients exp op
      = Returns (normalize_and_mirror (seeds exp op ++ rest), w)
    /\ let kernel := normalize_and_mirror (seeds exp op ++ rest) in
       let len := length (seeds exp op ++ rest) in
       (2 <= len)%nat
       /\ length kernel = (2 * len - 1)%nat
       /\ Nat.odd (length kernel) = true
       /\ (3 <= length kernel)%nat.
Proof.
  destruct (GenerateGaussianCoefficients_returns op) as (rest & w & _ & E & _).
  exists rest, w. split; [exact E |]. cbv zeta.
  assert (Hlen : (2 <= length (seeds exp op ++ rest))%nat)
    by (rewrite length_app; simpl; lia).
  rewrite normalize_and_mirror_length by lia.
  repeat split; try lia.
  replace (2 * length (seeds exp op ++ rest) - 1)%nat
    with (S (2 * (length (seeds exp op ++ rest) - 1)))%nat by lia.
  rewrite Nat.odd_succ. apply Nat.even_spec. now eexists.
Qed.

(** C2 (amended): with a maximum width of 5, whenever a wider bound lets
    the accumulation reach a sixth half-kernel tap without stalling there
    (it goes on to a seventh tap, a kernel of more than 11 taps, or ends
    with six or more and no precision warning), the call stops at 6
    half-kernel taps, raises the truncation warning and returns the
    mirrored kernel of [2 * 6 - 1 = 11] taps. *)
Theorem truncation_at_width_five op W' k' w' :
  m_MaximumKernelWidth op = 5%N ->
  GenerateGaussianCoefficients exp (SetMaximumKernelWidth W' op)
    = Returns (k', w') ->
  (11 < length k')%nat
  \/ ((9 < length k')%nat /\ existsb is_precision w' = false) ->
  exists k,
    GenerateGaussianCoefficients exp op = Returns (k, [KernelSizeExceeded 5 6])
    /\ length k = 11%nat.
Proof.
  intros HW E' Hcontinues.
  destruct (GenerateGaussianCoefficients_returns op)
    as (rest & w & Hrun & E & Hpost).
  destruct (GenerateGaussianCoefficients_returns (SetMaximumKernelWidth W' op))
    as (rest' & w'' & Hrun' & E'' & Hpost').
  change (seeds exp (SetMaximumKernelWidth W' op)) with (seeds exp op) in *.
  assert (Hk' : k' = normalize_and_mirror (seeds exp op ++ rest')) by congruence.
  assert (Hw' : w' = w'') by congruence.
  subst k' w''. clear E''.
  change (pixel_variance (SetMaximumKernelWidth W' op))
    with (pixel_variance op) in Hrun'.
  change (seed_sum exp (SetMaximumKernelWidth W' op))
    with (seed_sum exp op) in Hrun'.
  change (m_MaximumError (SetMaximumKernelWidth W' op))
    with (m_MaximumError op) in Hrun'.
  assert (Hseeds : length (seeds exp op) = 2%nat) by reflexivity.
  rewrite normalize_and_mirror_length in Hcontinues
    by (rewrite length_app; lia).
  unfold loop_post in Hpost, Hpost'. cbv zeta in Hpost, Hpost'.
  rewrite HW in Hpost. rewrite Hseeds in Hpost, Hpost'.
  change (m_MaximumKernelWidth (SetMaximumKernelWidth W' op)) with W' in *.
  assert (Hsix : length (seeds exp op ++ rest) = 6%nat
                 /\ w = [KernelSizeExceeded 5 6]).
  { destruct (N.le_gt_cases 5 W') as [Hwider | Hnarrow].
    2:{ exfalso.
        destruct Hpost' as [[_ Hs] | [[_ Hs] | [_ Hs]]]; lia. }
    destruct (accumulate_narrower op (SetMaximumKernelWidth W' op)
                (exp (- pixel_variance op)) (pixel_variance op)
                (1.0 - m_MaximumError op)
                ltac:(rewrite HW; exact Hwider)
                _ _ _ _ _ _ _ _ _ Hrun Hrun')
      as [[Hc Hw] | [Hw Hs]].
    - subst w'. rewrite <- Hc in Hcontinues.
      destruct Hpost as [[_ Hs] | [[[r [c ->]] Hs] | [-> Hs]]].
      + lia.
      + destruct Hcontinues as [Hmore | [_ Hquiet]];
          [lia | discriminate Hquiet].
      + replace (length (seeds exp op ++ rest)) with 6%nat by lia.
        now split.
    - rewrite HW in Hw.
      destruct Hpost as [[-> _] | [[[r [c ->]] _] | [_ Hsize]]];
        try discriminate Hw.
      assert (Hlen6 : length (seeds exp op ++ rest) = 6%nat) by lia.
      rewrite Hlen6 in Hw. now split. }
  destruct Hsix as [Hlen6 ->].
  eexists. split; [exact E |].
  rewrite normalize_and_mirror_length; lia.
Qed.

End KernelProperties.

(** C2, as stated, fails: with a maximum width of 5 the truncated kernel
    has 11 taps, not 5 or fewer (under a width of 30 the same setting
    yields a kernel of 53 taps and no warning). *)
Lemma truncated_kernel_exceeds_maximum_width :
  exists k k',
    GenerateGaussianCoefficients Reference.exp (slow_operator 5)
      = Returns (k, [KernelSizeExceeded 5 6])
    /\ length k = 11%nat
    /\ ~ (length k <= 5)%nat
    /\ GenerateGaussianCoefficients Reference.exp (slow_operator 30)
       = Returns (k', [])
    /\ length k' = 53%nat.
Proof.
  eexists; eexists.
  split; [vm_compute; reflexivity |].
  split; [reflexivity |].
  split; [simpl; lia |].
  split; [vm_compute; reflexivity | reflexivity].
Qed.

Lemma truncation_at_width_five_witness :
  exists k,
    GenerateGaussianCoefficients Reference.exp (slow_operator 5)
      = Returns (k, [KernelSizeExceeded 5 6])
    /\ length k = 11%nat.
Proof.
  eapply (truncation_at_width_five Reference.exp (slow_operator 5) 30).
  - reflexivity.
  - vm_compute. reflexivity.
  - left. simpl. lia.
Defined.

(** ** Overflow in the seed taps *)

Section Overflow.

Variable exp : double -> double.

(** C1 fails at [wide_operator]: binary64 cannot hold [exp(1000)], which
    overflows to infinity, nor [exp(-1000)], which underflows to zero;
    their product in the seed taps is NaN, the loop is not entered, and
    the three taps returned are NaN: they do not sum to one, and no tap
    compares equal to its mirror image. *)
Theorem large_variance_kernel_is_nan :
  exp 1000.0 = infinity ->
  exp (- 1000.0) = 0.0 ->
  GenerateGaussianCoefficients exp wide_operator = Returns ([nan; nan; nan], [])
  /\ (nth 0 [nan; nan; nan] 0 =? nth 2 [nan; nan; nan] 0) = false
  /\ is_nan (fold_left add [nan; nan; nan] 0) = true.
Proof.
  intros Hover Hunder.
  split; [| split; reflexivity].
  unfold GenerateGaussianCoefficients.
  rewrite GenerateGaussianCoefficients_fuel_unfold.
  unfold seed_sum, seeds, ModifiedBesselI0, ModifiedBesselI1,
    ModifiedBesselI1_accumulator.
  change (pixel_variance wide_operator) with 1000.0.
  change (abs 1000.0) with 1000.0.
  change (opp 1000.0) with (-1000.0).
  rewrite Hover, Hunder.
  vm_compute. reflexivity.
Qed.

End Overflow.

Lemma large_variance_kernel_is_nan_witness :
  GenerateGaussianCoefficients Reference.exp wide_operator
    = Returns ([nan; nan; nan], [])
  /\ (nth 0 [nan; nan; nan] 0 =? nth 2 [nan; nan; nan] 0) = false
  /\ is_nan (fold_left add [nan; nan; nan] 0) = true.
Proof.
  apply (large_variance_kernel_is_nan Reference.exp); reflexivity.
Defined.

(** At a moderate variance the same code behaves: the 11 taps for
    variance 4 sum to one within [1e-10] and compare equal in pairs. *)
Example moderate_variance_kernel :
  exists kernel,
    GenerateGaussianCoefficients Reference.exp (derivative_operator 0)
      = Returns (kernel, [])
    /\ length kernel = 11%nat
    /\ (abs (fold_left add kernel 0 - 1) <? 1e-10) = true
    /\ forallb (fun i => nth i kernel 0 =? nth (10 - i) kernel 0) (seq 0 11)
       = true.
Proof.
  eexists. split; [vm_compute; reflexivity |]. now vm_compute.
Qed.

(** ** The derivative kernel *)

Section ListFacts.

Context {A B : Type}.

Lemma fold_left_push (f : B -> A) (l : list B) (init : list A) :
  fold_left (fun acc i => acc ++ [f i]) l init = init ++ map f l.
Proof.
  revert init. induction l as [| x l IH]; intros init; simpl.
  - now rewrite app_nil_r.
  - rewrite IH, <- app_assoc. reflexivity.
Qed.

Lemma fold_left_map_seq (f : A -> B -> A) (g : nat -> B) (start len : nat) (a : A) :
  fold_left (fun a j => f a (g j)) (seq (S start) len) a
  = fold_left (fun a j => f a (g (S j))) (seq start len) a.
Proof.
  revert start a. induction len as [| len IH]; intros start a; simpl;
    [reflexivity | apply IH].
Qed.

End ListFacts.

Section DerivativeProperties.

Variable exp : double -> double.
Variable pow : double -> double -> double.
Variable DerivativeOperator : N -> CoefficientVector.

(** The index loop of [correlate] walks the padded kernel from [p] on
    against the reversed operator. *)
Lemma correlate_indexed (a r : CoefficientVector) (e : CompensatedSummation.t) :
  (length r <= length a)%nat ->
  fold_left
    (fun conv j => CompensatedSummation.AddElement conv (nth j a 0 * nth j r 0))
    (seq 0 (length r)) e
  = fold_left
      (fun conv xy => CompensatedSummation.AddElement conv (fst xy * snd xy))
      (combine a r) e.
Proof.
  revert a e. induction r as [| x r IH]; intros a e Hlen; [now destruct a |].
  destruct a as [| y a]; [simpl in Hlen; lia |].
  simpl length. cbn [seq fold_left combine nth fst snd].
  rewrite (fold_left_map_seq
             (fun conv v => CompensatedSummation.AddElement conv v)
             (fun j => nth j (y :: a) 0 * nth j (x :: r) 0)).
  cbn [nth]. apply IH. simpl in Hlen. lia.
Qed.

Lemma fold_left_ext_seq (f g : CompensatedSummation.t -> nat -> CompensatedSummation.t)
    (start len : nat) (e : CompensatedSummation.t) :
  (forall c j, (start <= j < start + len)%nat -> f c j = g c j) ->
  fold_left f (seq start len) e = fold_left g (seq start len) e.
Proof.
  revert start e. induction len as [| len IH]; intros start e H; simpl;
    [reflexivity |].
  rewrite H by lia. apply IH. intros c j Hj. apply H. lia.
Qed.

Lemma correlate_spec (padded derivOp : CoefficientVector) (N p : nat) :
  length derivOp = (2 * N + 1)%nat ->
  (p + length derivOp <= length padded)%nat ->
  correlate padded derivOp (N + p) = spec_correlation padded derivOp p.
Proof.
  intros Hodd Hfit. unfold correlate, spec_correlation.
  rewrite <- correlate_indexed
    by (rewrite length_rev, length_skipn; lia).
  rewrite length_rev.
  apply fold_left_ext_seq. intros c j Hj.
  assert (Hhalf : (length derivOp / 2 = N)%nat).
  { rewrite Hodd. replace (2 * N + 1)%nat with (1 + N * 2)%nat by lia.
    rewrite Nat.div_add by lia. reflexivity. }
  rewrite Hhalf, nth_skipn, rev_nth by lia.
  replace (N + p + j - N)%nat with (p + j)%nat by lia.
  replace (length derivOp - S j)%nat with (length derivOp - 1 - j)%nat by lia.
  reflexivity.
Qed.

(** A kernel of two taps or more is its first tap, a middle and its
    last tap. *)
Lemma ends_of_vector (coeff : CoefficientVector) :
  (2 <= length coeff)%nat ->
  exists mid, coeff = hd 0 coeff :: mid ++ [last coeff 0].
Proof.
  intros Hlen. destruct coeff as [| h t]; [simpl in Hlen; lia |].
  destruct (exists_last (l := t)) as (mid & l & ->);
    [destruct t; [simpl in Hlen; lia | discriminate] |].
  exists mid. simpl hd. f_equal. f_equal. f_equal.
  change (h :: mid ++ [l]) with ((h :: mid) ++ [l]). now rewrite last_last.
Qed.

(** The copy and the two fills build the clamped boundary. *)
Lemma pad_spec (coeff : CoefficientVector) (N : nat) :
  (1 <= N)%nat -> (2 <= length coeff)%nat ->
  pad coeff N = spec_pad coeff N.
Proof.
  intros HN Hlen. unfold spec_pad.
  destruct (ends_of_vector coeff Hlen) as [mid Hends].
  set (h := hd 0 coeff) in *. set (l := last coeff 0) in *.
  assert (Hmid : length coeff = (length mid + 2)%nat)
    by (rewrite Hends; simpl; rewrite length_app; simpl; lia).
  unfold pad. fold h l.
  set (n := (2 * N - 1)%nat).
  assert (Hcopy : copy_at coeff (repeat 0 (length coeff + 4 * N - 2)) n
                  = repeat 0 n ++ coeff ++ repeat 0 n).
  { unfold copy_at.
    replace (length coeff + 4 * N - 2)%nat with (n + (length coeff + n))%nat
      by lia.
    rewrite repeat_app, firstn_app, firstn_all2, repeat_length, Nat.sub_diag
      by (rewrite repeat_length; lia).
    rewrite firstn_O, app_nil_r.
    rewrite skipn_app, skipn_all2, repeat_length by (rewrite repeat_length; lia).
    replace (n + length coeff - n)%nat with (length coeff + 0)%nat by lia.
    rewrite repeat_app, skipn_app, skipn_all2, repeat_length
      by (rewrite repeat_length; lia).
    replace (length coeff + 0 - length coeff)%nat with 0%nat by lia.
    reflexivity. }
  rewrite Hcopy. clear Hcopy.
  assert (Hfront : fill (repeat 0 n ++ coeff ++ repeat 0 n) 0 (2 * N) h
                   = repeat h n ++ (h :: mid) ++ [l] ++ repeat 0 n).
  { unfold fill. rewrite firstn_O. cbn [app Nat.add].
    replace (2 * N)%nat with (n + 1)%nat by lia.
    rewrite skipn_app, skipn_all2, repeat_length by (rewrite repeat_length; lia).
    replace (n + 1 - n)%nat with 1%nat by lia.
    rewrite Hends at 1. cbn [skipn app].
    rewrite repeat_app, <- !app_assoc. reflexivity. }
  rewrite Hfront. clear Hfront.
  unfold fill.
  set (front := repeat h n ++ (h :: mid)).
  assert (Hsplit : repeat h n ++ (h :: mid) ++ [l] ++ repeat 0 n
                   = front ++ ([l] ++ repeat 0 n))
    by (unfold front; now rewrite <- app_assoc).
  rewrite Hsplit.
  assert (Hfrontlen : length front = (n + S (length mid))%nat)
    by (unfold front; rewrite length_app, repeat_length; reflexivity).
  assert (Htotal : length (front ++ [l] ++ repeat 0 n)
                   = (length front + 2 * N)%nat)
    by (rewrite !length_app, repeat_length; simpl; lia).
  rewrite Htotal.
  replace (length front + 2 * N - 2 * N)%nat with (length front + 0)%nat by lia.
  rewrite firstn_app_2, firstn_O, app_nil_r.
  rewrite skipn_all2 by (rewrite Htotal; lia).
  rewrite app_nil_r. unfold front.
  replace (2 * N)%nat with (1 + n)%nat by lia.
  rewrite repeat_app. rewrite Hends at 1.
  cbn [repeat app]. rewrite <- !app_assoc. reflexivity.
Qed.

Lemma spec_pad_length (coeff : CoefficientVector) (N : nat) :
  (1 <= N)%nat ->
  length (spec_pad coeff N) = (length coeff + 4 * N - 2)%nat.
Proof.
  intros HN. unfold spec_pad. rewrite !length_app, !repeat_length. lia.
Qed.

Lemma unsigned2int_small (u : N) :
  (u < 2 ^ 31)%N -> unsigned2int u = Z.of_N u.
Proof.
  intros Hu. unfold unsigned2int.
  assert (H31 : (Z.of_N u < 2 ^ 31)%Z)
    by (change (2 ^ 31)%Z with (Z.of_N (2 ^ 31)); lia).
  rewrite Z.mod_small by lia.
  destruct (Z.ltb_spec (Z.of_N u) (2 ^ 31)); [reflexivity | lia].
Qed.

Lemma normalization_spec op :
  (m_Order op < 2 ^ 31)%N -> normalization pow op = spec_norm pow op.
Proof.
  intros Hu. unfold normalization, spec_norm.
  rewrite unsigned2int_small by exact Hu. reflexivity.
Qed.

Lemma map_seq_offset {B : Type} (f : nat -> B) (start len : nat) :
  map f (seq start len) = map (fun p => f (start + p)%nat) (seq 0 len).
Proof.
  revert start f. induction len as [| len IH]; intros start f; [reflexivity |].
  cbn [seq map]. rewrite Nat.add_0_r. f_equal.
  rewrite IH, <- (seq_shift len 0), map_map.
  apply map_ext. intros p. f_equal. lia.
Qed.

(** The derivative kernel, once the order-0 kernel is known. *)
Lemma GenerateCoefficients_unfold op gaussian w :
  GenerateGaussianCoefficients exp op = Returns (gaussian, w) ->
  m_Order op <> 0%N ->
  let derivOp := DerivativeOperator (m_Order op) in
  let N := ((length derivOp - 1) / 2)%nat in
  GenerateCoefficients exp pow DerivativeOperator op
  = Returns
      (map (fun p =>
              normalization pow op
              * CompensatedSummation.GetSum
                  (correlate (pad gaussian N) derivOp (N + p)))
           (seq 0 (length (pad gaussian N) - N - N)),
       w).
Proof.
  intros E Horder. cbv zeta. unfold GenerateCoefficients.
  rewrite E. cbn [bind fst snd].
  destruct (N.eqb_spec (m_Order op) 0) as [H0 | _]; [contradiction |].
  cbv zeta. rewrite fold_left_push. cbn [app].
  now rewrite map_seq_offset.
Qed.

Lemma gaussian_has_three_taps op gaussian w :
  GenerateGaussianCoefficients exp op = Returns (gaussian, w) ->
  (3 <= length gaussian)%nat.
Proof.
  intros E.
  destruct (GenerateGaussianCoefficients_returns exp op)
    as (rest & w' & _ & E' & _).
  assert (Hg : gaussian = normalize_and_mirror (seeds exp op ++ rest))
    by congruence.
  rewrite Hg, normalize_and_mirror_length; rewrite length_app; simpl; lia.
Qed.

(** C3 (amended): for every order above 0 and a derivative operator of
    radius [N >= 1], the kernel returned has the length of the order-0
    kernel padded by [N - 1] on each side, [length + 2 * N - 2]; the two
    lengths agree exactly when [N = 1]. *)
Theorem GenerateCoefficients_length op :
  m_Order op <> 0%N ->
  (1 <= (length (DerivativeOperator (m_Order op)) - 1) / 2)%nat ->
  exists gaussian kernel w,
    GenerateGaussianCoefficients exp op = Returns (gaussian, w)
    /\ GenerateCoefficients exp pow DerivativeOperator op = Returns (kernel, w)
    /\ length kernel
       = (length gaussian
          + 2 * ((length (DerivativeOperator (m_Order op)) - 1) / 2) - 2)%nat
    /\ (length kernel = length gaussian
        <-> ((length (DerivativeOperator (m_Order op)) - 1) / 2 = 1)%nat).
Proof.
  intros Horder HN.
  destruct (GenerateGaussianCoefficients_returns exp op)
    as (rest & w & _ & E & _).
  pose proof (gaussian_has_three_taps op _ w E) as Hthree.
  eexists; eexists; exists w. split; [exact E |].
  split; [exact (GenerateCoefficients_unfold op _ w E Horder) |].
  rewrite length_map, length_seq, pad_spec, spec_pad_length by lia.
  split; lia.
Qed.

(** C6: for every order [k > 0] (below [2^31]) and a derivative operator
    of [2 * N + 1] taps, every tap of the kernel returned is the scale
    factor [(variance^(k/2) or 1) / spacing^k] times the correlation of the
    padded order-0 kernel with the reversed operator at that position. *)
Theorem GenerateCoefficients_scaled_correlation op N :
  m_Order op <> 0%N ->
  (m_Order op < 2 ^ 31)%N ->
  (1 <= N)%nat ->
  length (DerivativeOperator (m_Order op)) = (2 * N + 1)%nat ->
  exists gaussian kernel w,
    GenerateGaussianCoefficients exp op = Returns (gaussian, w)
    /\ GenerateCoefficients exp pow DerivativeOperator op = Returns (kernel, w)
    /\ kernel
       = spec_derivative_kernel pow op gaussian (DerivativeOperator (m_Order op))
    /\ forall p, (p < length kernel)%nat ->
         nth p kernel 0
         = spec_norm pow op
           * CompensatedSummation.GetSum
               (spec_correlation (spec_pad gaussian N)
                  (DerivativeOperator (m_Order op)) p).
Proof.
  intros Horder Hint HN Hodd.
  destruct (GenerateGaussianCoefficients_returns exp op)
    as (rest & w & _ & E & _).
  pose proof (gaussian_has_three_taps op _ w E) as Hthree.
  set (gaussian := normalize_and_mirror (seeds exp op ++ rest)) in *.
  set (derivOp := DerivativeOperator (m_Order op)) in *.
  assert (Hradius : ((length derivOp - 1) / 2 = N)%nat).
  { rewrite Hodd. replace (2 * N + 1 - 1)%nat with (N * 2)%nat by lia.
    now rewrite Nat.div_mul. }
  assert (Hkernel :
            map (fun p =>
                   normalization pow op
                   * CompensatedSummation.GetSum
                       (correlate (pad gaussian N) derivOp (N + p)))
              (seq 0 (length (pad gaussian N) - N - N))
            = spec_derivative_kernel pow op gaussian derivOp).
  { unfold spec_derivative_kernel. rewrite Hradius.
    rewrite pad_spec, spec_pad_length by lia.
    replace (length gaussian + 4 * N - 2 - N - N)%nat
      with (length gaussian + 2 * N - 2)%nat by lia.
    apply map_ext_in. intros p Hp. apply in_seq in Hp.
    rewrite normalization_spec by exact Hint.
    rewrite correlate_spec with (N := N);
      [reflexivity | exact Hodd | rewrite spec_pad_length; lia]. }
  exists gaussian, (spec_derivative_kernel pow op gaussian derivOp), w.
  split; [exact E |].
  split.
  { rewrite <- Hkernel, <- Hradius.
    exact (GenerateCoefficients_unfold op _ w E Horder). }
  split; [reflexivity |].
  intros p Hp. unfold spec_derivative_kernel in *.
  rewrite length_map, length_seq in Hp. rewrite Hradius in *.
  rewrite nth_indep with (d' := spec_norm pow op
           * CompensatedSummation.GetSum
               (spec_correlation (spec_pad gaussian N) derivOp 0))
    by (rewrite length_map, length_seq; exact Hp).
  rewrite (map_nth (fun p => spec_norm pow op
           * CompensatedSummation.GetSum
               (spec_correlation (spec_pad gaussian N) derivOp p))
             (seq 0 (length gaussian + 2 * N - 2)) 0%nat p).
  now rewrite seq_nth by exact Hp.
Qed.

End DerivativeProperties.

(** C3, as stated, fails: a derivative operator of order 3 has 5 taps,
    radius 2, and the kernel returned has 13 taps where the order-0
    kernel has 11. *)
Lemma third_order_kernel_is_longer :
  exists gaussian kernel w,
    GenerateGaussianCoefficients Reference.exp (derivative_operator 3)
      = Returns (gaussian, w)
    /\ GenerateCoefficients Reference.exp Reference.pow
         Reference.DerivativeOperator (derivative_operator 3)
       = Returns (kernel, w)
    /\ length (Reference.DerivativeOperator 3) = 5%nat
    /\ length gaussian = 11%nat
    /\ length kernel = 13%nat
    /\ length kernel <> length gaussian.
Proof.
  eexists; eexists; eexists.
  split; [vm_compute; reflexivity |].
  split; [vm_compute; reflexivity |].
  repeat split. simpl. lia.
Qed.

Lemma GenerateCoefficients_length_witness :
  exists gaussian kernel w,
    GenerateGaussianCoefficients Reference.exp (derivative_operator 3)
      = Returns (gaussian, w)
    /\ GenerateCoefficients Reference.exp Reference.pow
         Reference.DerivativeOperator (derivative_operator 3)
       = Returns (kernel, w)
    /\ length kernel = (length gaussian + 2 * 2 - 2)%nat
    /\ (length kernel = length gaussian <-> (2 = 1)%nat).
Proof.
  apply (GenerateCoefficients_length Reference.exp Reference.pow
           Reference.DerivativeOperator (derivative_operator 3)).
  - discriminate.
  - vm_compute. lia.
Defined.

Lemma GenerateCoefficients_scaled_correlation_witness :
  exists gaussian kernel w,
    GenerateGaussianCoefficients Reference.exp (derivative_operator 1)
      = Returns (gaussian, w)
    /\ GenerateCoefficients Reference.exp Reference.pow
         Reference.DerivativeOperator (derivative_operator 1)
       = Returns (kernel, w)
    /\ kernel
       = spec_derivative_kernel Reference.pow (derivative_operator 1) gaussian
           (Reference.DerivativeOperator 1)
    /\ forall p, (p < length kernel)%nat ->
         nth p kernel 0
         = spec_norm Reference.pow (derivative_operator 1)
           * CompensatedSummation.GetSum
               (spec_correlation (spec_pad gaussian 1)
                  (Reference.DerivativeOperator 1) p).
Proof.
  apply (GenerateCoefficients_scaled_correlation Reference.exp Reference.pow
           Reference.DerivativeOperator (derivative_operator 1) 1).
  - discriminate.
  - reflexivity.
  - lia.
  - reflexivity.
Defined.


(** * Further properties of the operator *)

(** ** NaN and zero in binary64 arithmetic *)

Section NotANumber.

Lemma mul_nan_r (x : double) : x * nan = nan.
Proof.
  apply Prim2SF_inj. rewrite mul_spec.
  change (Prim2SF nan) with S754_nan.
  unfold SF64mul, SFmul. now destruct (Prim2SF x).
Qed.

Lemma mul_nan_l (x : double) : nan * x = nan.
Proof.
  apply Prim2SF_inj. rewrite mul_spec.
  change (Prim2SF nan) with S754_nan. reflexivity.
Qed.

Lemma add_nan_l (x : double) : nan + x = nan.
Proof.
  apply Prim2SF_inj. rewrite add_spec.
  change (Prim2SF nan) with S754_nan. reflexivity.
Qed.

Lemma add_nan_r (x : double) : x + nan = nan.
Proof.
  apply Prim2SF_inj. rewrite add_spec.
  change (Prim2SF nan) with S754_nan.
  unfold SF64add, SFadd. now destruct (Prim2SF x).
Qed.

Lemma sub_nan_l (x : double) : nan - x = nan.
Proof.
  apply Prim2SF_inj. rewrite sub_spec.
  change (Prim2SF nan) with S754_nan. reflexivity.
Qed.

Lemma ltb_nan_l (x : double) : (nan <? x) = false.
Proof.
  rewrite ltb_spec. change (Prim2SF nan) with S754_nan. reflexivity.
Qed.

Lemma is_nan_true (x : double) : is_nan x = true -> x = nan.
Proof.
  intros Hx. apply Prim2SF_nan.
  unfold is_nan in Hx. rewrite eqb_spec in Hx. unfold SFeqb in Hx.
  destruct (Prim2SF x) as [s | s | | s m e] eqn:E; try reflexivity;
    rewrite SFcompare_refl in Hx by discriminate; discriminate Hx.
Qed.

Lemma eqb_opp_zero (y : double) : (- y =? 0.0) = (y =? 0.0).
Proof.
  rewrite !eqb_spec, opp_spec.
  change (Prim2SF 0.0) with (S754_zero false).
  now destruct (Prim2SF y) as [s | s | | s m e]; try destruct s.
Qed.

End NotANumber.

(** ** More on the Bessel functions *)

Section MoreBessel.

Variable exp : double -> double.

(** X1: [ModifiedBesselI0] is even: [-y] and [y] give the same double,
    bit for bit, for every [y]. *)
Theorem ModifiedBesselI0_even (y : double) :
  ModifiedBesselI0 exp (- y) = ModifiedBesselI0 exp y.
Proof.
  unfold ModifiedBesselI0.
  rewrite abs_opp, div_opp_l, mul_opp_opp. reflexivity.
Qed.



(** The loop does not look at the sign of [y]. *)
Lemma ModifiedBesselI_run_opp (n : Z) (y : double) :
  signed y ->
  ModifiedBesselI_run exp n (- y)
  = fmap (fun r => (if negb (Z.land n 1 =? 0)%Z then - fst r else fst r, snd r))
      (ModifiedBesselI_run exp n y).
Proof.
  intros Hy. unfold ModifiedBesselI_run.
  destruct (n <? 2)%Z; [reflexivity |].
  rewrite eqb_opp_zero.
  assert (Hnonzero : (y =? 0.0) = false).
  { unfold signed in Hy. rewrite eqb_spec.
    change (Prim2SF 0.0) with (S754_zero false).
    destruct (Prim2SF y) as [s | s | | s m e]; try contradiction;
      now destruct s. }
  rewrite Hnonzero, abs_opp, ModifiedBesselI0_even, ltb_opp_zero by exact Hy.
  destruct (y <? 0.0), (negb (Z.land n 1 =? 0)%Z); cbn [negb andb fmap bind fst snd];
    rewrite ?opp_involutive; reflexivity.
Qed.

(** X2: for every order and every [y] other than zero and NaN,
    [ModifiedBesselI(n, -y)] is [ModifiedBesselI(n, y)] for an even [n]
    and its negation for an odd [n], bit for bit; both calls throw
    together when [n < 2]. *)
Theorem ModifiedBesselI_parity (n : Z) (y : double) :
  signed y ->
  ModifiedBesselI exp n (- y)
  = fmap (fun v => if negb (Z.land n 1 =? 0)%Z then - v else v)
      (ModifiedBesselI exp n y).
Proof.
  intros Hy. unfold ModifiedBesselI.
  rewrite ModifiedBesselI_run_opp by exact Hy.
  now destruct (ModifiedBesselI_run exp n y) as [[v k] | e |].
Qed.


Lemma ModifiedBesselI0_nan : ModifiedBesselI0 exp nan = nan.
Proof.
  unfold ModifiedBesselI0.
  change (abs nan) with nan. change (sqrt nan) with nan.
  rewrite (div_nan_r (exp nan)). reflexivity.
Qed.

End MoreBessel.

Lemma ModifiedBesselI_parity_witness :
  ModifiedBesselI Reference.exp 3 (- 5.0)
  = fmap (fun v => if negb (Z.land 3 1 =? 0)%Z then - v else v)
      (ModifiedBesselI Reference.exp 3 5.0).
Proof.
  apply (ModifiedBesselI_parity Reference.exp 3 5.0). exact I.
Defined.


(** ** More on the order-0 kernel *)

Section MoreKernel.

Variable exp : double -> double.

(** X4: for every setting the kernel returned reads the same in both
    directions: tap [i] and tap [length - 1 - i] are the same double. *)
Theorem GenerateGaussianCoefficients_palindrome op :
  exists kernel w,
    GenerateGaussianCoefficients exp op = Returns (kernel, w)
    /\ rev kernel = kernel
    /\ forall i, (i < length kernel)%nat ->
         nth i kernel 0 = nth (length kernel - 1 - i) kernel 0.
Proof.
  destruct (GenerateGaussianCoefficients_returns exp op)
    as (rest & w & _ & E & _).
  eexists; exists w. split; [exact E |].
  split; [apply normalize_and_mirror_palindrome |].
  intros i Hi. now apply normalize_and_mirror_symmetric.
Qed.

(** X5: for every setting the call raises at most one warning.  Without
    a warning the half kernel has at most [max 2 width] taps; a
    truncation warning reports the maximum width and the size of the
    half kernel, which is [max 3 (width + 1)]; the kernel returned has at
    most [2 * max 3 (width + 1) - 1] taps in every case. *)
Theorem GenerateGaussianCoefficients_warnings op :
  exists kernel w,
    GenerateGaussianCoefficients exp op = Returns (kernel, w)
    /\ (length kernel <= 2 * truncated_size op - 1)%nat
    /\ ((w = []
         /\ (length kernel
             <= 2 * Nat.max 2 (N.to_nat (m_MaximumKernelWidth op)) - 1)%nat)
        \/ (exists r c, w = [KernelFailedToAccumulate r c])
        \/ (w = [KernelSizeExceeded (m_MaximumKernelWidth op) (truncated_size op)]
            /\ length kernel = (2 * truncated_size op - 1)%nat)).
Proof.
  destruct (GenerateGaussianCoefficients_returns exp op)
    as (rest & w & _ & E & Hpost).
  eexists; exists w. split; [exact E |].
  assert (Hseeds : length (seeds exp op) = 2%nat) by reflexivity.
  rewrite normalize_and_mirror_length by (rewrite length_app; lia).
  unfold loop_post in Hpost. cbv zeta in Hpost. rewrite Hseeds in Hpost.
  unfold truncated_size.
  destruct Hpost as [[Hw Hs] | [[Hw Hs] | [Hw Hs]]].
  - split; [lia |]. left. split; [exact Hw | lia].
  - split; [lia |]. right; left. exact Hw.
  - split; [lia |]. right; right. rewrite Hw, Hs. split; [reflexivity | lia].
Qed.

(** [accumulate] reads the maximum width of the operator and nothing
    else of it. *)
Lemma accumulate_width_only op op' et pv cap :
  m_MaximumKernelWidth op = m_MaximumKernelWidth op' ->
  forall fuel i coeff sum,
    accumulate exp fuel op et pv cap i coeff sum
    = accumulate exp fuel op' et pv cap i coeff sum.
Proof.
  intros HW. induction fuel as [| fuel IH]; intros i coeff sum;
    rewrite (accumulate_unfold exp _ op), (accumulate_unfold exp _ op');
    destruct (CompensatedSummation.GetSum sum <? cap); try reflexivity.
  destruct (ModifiedBesselI exp i pv) as [b | e |]; cbn [bind];
    try reflexivity.
  cbv zeta. rewrite HW.
  destruct (_ <? _); [reflexivity |].
  destruct (_ <? _)%N; [reflexivity | apply IH].
Qed.

(** X6: raising the maximum width never shortens the kernel, and a call
    that raised no truncation warning returns the same kernel and the
    same warnings under every larger maximum width. *)
Theorem GenerateGaussianCoefficients_wider op W' :
  (m_MaximumKernelWidth op <= W')%N ->
  exists kernel w kernel' w',
    GenerateGaussianCoefficients exp op = Returns (kernel, w)
    /\ GenerateGaussianCoefficients exp (SetMaximumKernelWidth W' op)
       = Returns (kernel', w')
    /\ (length kernel <= length kernel')%nat
    /\ (forallb is_precision w = true -> kernel' = kernel /\ w' = w).
Proof.
  intros Hle.
  destruct (GenerateGaussianCoefficients_returns exp op)
    as (rest & w & Hrun & E & _).
  destruct (GenerateGaussianCoefficients_returns exp
              (SetMaximumKernelWidth W' op))
    as (rest' & w' & Hrun' & E' & _).
  change (seeds exp (SetMaximumKernelWidth W' op)) with (seeds exp op) in *.
  change (pixel_variance (SetMaximumKernelWidth W' op))
    with (pixel_variance op) in Hrun'.
  change (seed_sum exp (SetMaximumKernelWidth W' op))
    with (seed_sum exp op) in Hrun'.
  change (m_MaximumError (SetMaximumKernelWidth W' op))
    with (m_MaximumError op) in Hrun'.
  eexists; exists w; eexists; exists w'.
  split; [exact E |]. split; [exact E' |].
  assert (Hseeds : length (seeds exp op) = 2%nat) by reflexivity.
  rewrite !normalize_and_mirror_length by (rewrite length_app; lia).
  destruct (accumulate_narrower exp op (SetMaximumKernelWidth W' op)
              (exp (- pixel_variance op)) (pixel_variance op)
              (1.0 - m_MaximumError op) Hle
              _ _ _ _ _ _ _ _ _ Hrun Hrun')
    as [[Hc Hw] | [Hw Hs]].
  - rewrite <- Hc. split; [lia |]. intros _. rewrite Hw. now split.
  - split; [lia |]. intros Hquiet. rewrite Hw in Hquiet. discriminate Hquiet.
Qed.

(** X7: the spacing enters the order-0 kernel through its square only:
    a spacing and its negation give the same kernel and warnings. *)
Theorem GenerateGaussianCoefficients_spacing_sign op :
  GenerateGaussianCoefficients exp (SetSpacing (- m_Spacing op) op)
  = GenerateGaussianCoefficients exp op.
Proof.
  unfold GenerateGaussianCoefficients.
  rewrite !GenerateGaussianCoefficients_fuel_unfold.
  assert (Hpv : pixel_variance (SetSpacing (- m_Spacing op) op)
                = pixel_variance op).
  { unfold pixel_variance. cbn [m_Variance m_Spacing SetSpacing].
    now rewrite mul_opp_opp. }
  unfold seed_sum, seeds. rewrite Hpv.
  cbn [m_MaximumKernelWidth m_MaximumError SetSpacing].
  rewrite (accumulate_width_only (SetSpacing (- m_Spacing op) op) op)
    by reflexivity.
  reflexivity.
Qed.

(** X8: when the first seed tap is NaN the loop is not entered, no
    warning is raised and the kernel returned is three NaN. *)
Theorem GenerateGaussianCoefficients_nan_seed op :
  is_nan (nth 0 (seeds exp op) 0) = true ->
  GenerateGaussianCoefficients exp op = Returns ([nan; nan; nan], []).
Proof.
  intros Hseed. apply is_nan_true in Hseed.
  unfold GenerateGaussianCoefficients.
  rewrite GenerateGaussianCoefficients_fuel_unfold.
  unfold seed_sum.
  set (b := nth 1 (seeds exp op) 0).
  assert (Hseeds : seeds exp op = [nan; b])
    by (rewrite <- Hseed; reflexivity).
  rewrite Hseeds. cbn [nth].
  rewrite accumulate_unfold.
  unfold CompensatedSummation.AddElement, CompensatedSummation.of_double,
    CompensatedSummation.GetSum.
  cbn [CompensatedSummation.m_Sum CompensatedSummation.m_Compensation].
  rewrite add_nan_l, ltb_nan_l. cbn [bind fst snd].
  unfold normalize_and_mirror, CompensatedSummation.AddElement,
    CompensatedSummation.Scale, CompensatedSummation.of_double,
    CompensatedSummation.GetSum.
  cbn [CompensatedSummation.m_Sum CompensatedSummation.m_Compensation nth].
  rewrite sub_nan_l, add_nan_r.
  cbn [map]. rewrite !div_nan_r. reflexivity.
Qed.

(** X9: a NaN variance or a NaN spacing gives three NaN taps, without a
    warning and without an exception. *)
Theorem GenerateGaussianCoefficients_nan_setting op :
  is_nan (m_Variance op) || is_nan (m_Spacing op) = true ->
  GenerateGaussianCoefficients exp op = Returns ([nan; nan; nan], []).
Proof.
  intros Hnan. apply GenerateGaussianCoefficients_nan_seed.
  assert (Hpv : pixel_variance op = nan).
  { unfold pixel_variance.
    destruct (is_nan (m_Variance op)) eqn:Hv.
    - apply is_nan_true in Hv. rewrite Hv.
      apply Prim2SF_inj. rewrite div_spec. reflexivity.
    - cbn [orb] in Hnan. apply is_nan_true in Hnan. rewrite Hnan.
      rewrite mul_nan_l. apply div_nan_r. }
  unfold seeds. rewrite Hpv. cbn [nth].
  rewrite ModifiedBesselI0_nan, mul_nan_r. reflexivity.
Qed.

End MoreKernel.

Lemma GenerateGaussianCoefficients_wider_witness :
  exists kernel w kernel' w',
    GenerateGaussianCoefficients Reference.exp (slow_operator 5)
      = Returns (kernel, w)
    /\ GenerateGaussianCoefficients Reference.exp
         (SetMaximumKernelWidth 30 (slow_operator 5))
       = Returns (kernel', w')
    /\ (length kernel <= length kernel')%nat
    /\ (forallb is_precision w = true -> kernel' = kernel /\ w' = w).
Proof.
  apply (GenerateGaussianCoefficients_wider Reference.exp (slow_operator 5) 30).
  simpl. lia.
Defined.

Lemma GenerateGaussianCoefficients_nan_seed_witness :
  GenerateGaussianCoefficients Reference.exp wide_operator
  = Returns ([nan; nan; nan], []).
Proof.
  apply (GenerateGaussianCoefficients_nan_seed Reference.exp wide_operator).
  vm_compute. reflexivity.
Defined.

Lemma GenerateGaussianCoefficients_nan_setting_witness :
  GenerateGaussianCoefficients Reference.exp (SetSpacing nan wide_operator)
  = Returns ([nan; nan; nan], []).
Proof.
  apply (GenerateGaussianCoefficients_nan_setting Reference.exp
           (SetSpacing nan wide_operator)).
  reflexivity.
Defined.

(** ** More on the derivative kernel *)

Section MoreDerivative.

Variable exp : double -> double.
Variable pow : double -> double -> double.
Variable DerivativeOperator : N -> CoefficientVector.

(** X10: the copy and the two fills of [GenerateCoefficients] clamp the
    kernel at its boundary: the padded vector has [4 * N - 2] taps more,
    and its tap [i] is the tap of the kernel at [i - (2 * N - 1)], moved
    to the first or the last tap when that position falls outside. *)
Theorem pad_clamps (coeff : CoefficientVector) (N i : nat) :
  (1 <= N)%nat -> (2 <= length coeff)%nat ->
  (i < length coeff + 4 * N - 2)%nat ->
  length (pad coeff N) = (length coeff + 4 * N - 2)%nat
  /\ nth i (pad coeff N) 0
     = nth (Nat.min (i - (2 * N - 1)) (length coeff - 1)) coeff 0.
Proof.
  intros HN Hlen Hi. rewrite pad_spec by assumption.
  split; [now apply spec_pad_length |].
  unfold spec_pad.
  destruct (ends_of_vector coeff Hlen) as [mid Hends].
  set (h := hd 0 coeff) in *. set (l := last coeff 0) in *.
  assert (Hmid : length coeff = (length mid + 2)%nat)
    by (rewrite Hends; simpl; rewrite length_app; simpl; lia).
  assert (Hlast : nth (length coeff - 1) coeff 0 = l).
  { rewrite Hends at 2.
    change (h :: mid ++ [l]) with ((h :: mid) ++ [l]).
    rewrite app_nth2 by (simpl; lia).
    replace (length coeff - 1 - length (h :: mid))%nat with 0%nat
      by (simpl; lia).
    reflexivity. }
  assert (Hfirst : nth 0 coeff 0 = h) by (rewrite Hends; reflexivity).
  set (n := (2 * N - 1)%nat) in *.
  destruct (Nat.lt_ge_cases i n) as [Hlow | Hge].
  - rewrite app_nth1 by (rewrite repeat_length; exact Hlow).
    rewrite nth_repeat_lt by exact Hlow.
    replace (i - n)%nat with 0%nat by lia.
    rewrite Nat.min_0_l. now rewrite Hfirst.
  - rewrite app_nth2 by (rewrite repeat_length; exact Hge).
    rewrite repeat_length.
    destruct (Nat.lt_ge_cases (i - n) (length coeff)) as [Hin | Hhigh].
    + rewrite app_nth1 by exact Hin.
      now rewrite Nat.min_l by lia.
    + rewrite app_nth2 by exact Hhigh.
      rewrite Nat.min_r by lia. rewrite Hlast.
      apply nth_repeat_lt. lia.
Qed.

(** X11: for every order above 0 and a derivative operator of radius
    [N >= 1] the call returns, with the warnings of the order-0 kernel,
    a kernel of odd length that holds [2 * N + 1] taps at least. *)
Theorem GenerateCoefficients_odd_length op :
  m_Order op <> 0%N ->
  (1 <= (length (DerivativeOperator (m_Order op)) - 1) / 2)%nat ->
  exists gaussian kernel w,
    GenerateGaussianCoefficients exp op = Returns (gaussian, w)
    /\ GenerateCoefficients exp pow DerivativeOperator op = Returns (kernel, w)
    /\ Nat.odd (length kernel) = true
    /\ (2 * ((length (DerivativeOperator (m_Order op)) - 1) / 2) + 1
        <= length kernel)%nat.
Proof.
  intros Horder HN.
  destruct (GenerateGaussianCoefficients_returns exp op)
    as (rest & w & _ & E & _).
  eexists; eexists; exists w. split; [exact E |].
  split; [exact (GenerateCoefficients_unfold exp pow DerivativeOperator
                   op _ w E Horder) |].
  assert (Hhalf : (2 <= length (seeds exp op ++ rest))%nat)
    by (rewrite length_app; simpl; lia).
  rewrite length_map, length_seq, pad_spec, spec_pad_length;
    rewrite ?normalize_and_mirror_length; try lia.
  set (N := ((length (DerivativeOperator (m_Order op)) - 1) / 2)%nat) in *.
  set (len := length (seeds exp op ++ rest)) in *.
  split; [| lia].
  replace (2 * len - 1 + 4 * N - 2 - N - N)%nat
    with (S (2 * (len + N - 2)))%nat by lia.
  rewrite Nat.odd_succ. apply Nat.even_spec. now eexists.
Qed.

End MoreDerivative.

Lemma pad_clamps_witness :
  length (pad [1.0; 2.0; 3.0] 2) = (3 + 4 * 2 - 2)%nat
  /\ nth 7 (pad [1.0; 2.0; 3.0] 2) 0
     = nth (Nat.min (7 - (2 * 2 - 1)) (3 - 1)) [1.0; 2.0; 3.0] 0.
Proof.
  apply (pad_clamps [1.0; 2.0; 3.0] 2 7); simpl; lia.
Defined.

Lemma GenerateCoefficients_odd_length_witness :
  exists gaussian kernel w,
    GenerateGaussianCoefficients Reference.exp (derivative_operator 3)
      = Returns (gaussian, w)
    /\ GenerateCoefficients Reference.exp Reference.pow
         Reference.DerivativeOperator (derivative_operator 3)
       = Returns (kernel, w)
    /\ Nat.odd (length kernel) = true
    /\ (2 * 2 + 1 <= length kernel)%nat.
Proof.
  apply (GenerateCoefficients_odd_length Reference.exp Reference.pow
           Reference.DerivativeOperator (derivative_operator 3)).
  - discriminate.
  - vm_compute. lia.
Defined.

(** ** Linear interpolation of vector images *)

Section MoreArithmetic.




Lemma nth_map_seq {B : Type} (g : nat -> B) (len i : nat) (d : B) :
  (i < len)%nat -> nth i (map g (seq 0 len)) d = g i.
Proof.
  intros Hi. rewrite nth_indep with (d' := g 0%nat)
    by (rewrite length_map, length_seq; exact Hi).
  rewrite map_nth, seq_nth by exact Hi. reflexivity.
Qed.

End MoreArithmetic.

Section InterpolationProperties.

Variable Floor : double -> Z.

(** The inner loop does not read the image. *)
Lemma neighbor_loop_image image f baseIndex distance :
  forall dims upper neighIndex overlap,
    neighbor_loop (SetInputImage image f) baseIndex distance dims upper
      neighIndex overlap
    = neighbor_loop f baseIndex distance dims upper neighIndex overlap.
Proof.
  induction dims as [| dim dims IH]; intros upper neighIndex overlap;
    [reflexivity |].
  cbn [neighbor_loop m_StartIndex m_EndIndex SetInputImage].
  destruct (negb (N.land upper 1 =? 0)%N); apply IH.
Qed.

(** With the base index at most one step below the start and not above
    the end, every neighbor lies within the bounds. *)
Lemma neighbor_loop_inside f baseIndex distance :
  (forall dim, (dim < ImageDimension f)%nat ->
     (nth dim (m_StartIndex f) 0 - 1 <= nth dim baseIndex 0
      <= nth dim (m_EndIndex f) 0)%Z
     /\ (nth dim (m_StartIndex f) 0 <= nth dim (m_EndIndex f) 0)%Z) ->
  forall n a upper neighIndex overlap,
    (a + n = ImageDimension f)%nat ->
    length neighIndex = a ->
    (forall dim, (dim < a)%nat ->
       (nth dim (m_StartIndex f) 0 <= nth dim neighIndex 0
        <= nth dim (m_EndIndex f) 0)%Z) ->
    inside f
      (fst (neighbor_loop f baseIndex distance (seq a n) upper
              neighIndex overlap)).
Proof.
  intros Hbase.
  induction n as [| n IH]; intros a upper neighIndex overlap Hsum Hlen Hin.
  - cbn [seq neighbor_loop fst]. split; [lia |].
    intros dim Hdim. apply Hin. lia.
  - cbn [seq neighbor_loop].
    destruct (Hbase a ltac:(lia)) as [[Hlow Hhigh] Horder].
    assert (Hstep : forall v,
              (nth a (m_StartIndex f) 0 <= v <= nth a (m_EndIndex f) 0)%Z ->
              forall dim, (dim < S a)%nat ->
                (nth dim (m_StartIndex f) 0 <= nth dim (neighIndex ++ [v]) 0
                 <= nth dim (m_EndIndex f) 0)%Z).
    { intros v Hv dim Hdim.
      destruct (Nat.lt_ge_cases dim a) as [Hlt | Hge].
      - rewrite app_nth1 by lia. now apply Hin.
      - assert (dim = a) by lia. subst dim.
        rewrite app_nth2 by lia.
        rewrite Hlen, Nat.sub_diag. exact Hv. }
    destruct (negb (N.land upper 1 =? 0)%N); cbv zeta;
      apply IH; try lia;
      try (rewrite length_app; simpl; lia);
      apply Hstep; lia.
Qed.

Lemma neighbors_loop_image image f baseIndex distance :
  (forall dim, (dim < ImageDimension f)%nat ->
     (nth dim (m_StartIndex f) 0 - 1 <= nth dim baseIndex 0
      <= nth dim (m_EndIndex f) 0)%Z
     /\ (nth dim (m_StartIndex f) 0 <= nth dim (m_EndIndex f) 0)%Z) ->
  (forall idx, inside f idx -> image idx = GetPixel f idx) ->
  forall counters output totalOverlap,
    neighbors_loop (SetInputImage image f) baseIndex distance counters
      output totalOverlap
    = neighbors_loop f baseIndex distance counters output totalOverlap.
Proof.
  intros Hbase Hagree.
  induction counters as [| counter counters IH]; intros output totalOverlap;
    [reflexivity |].
  cbn [neighbors_loop].
  change (ImageDimension (SetInputImage image f)) with (ImageDimension f).
  rewrite neighbor_loop_image.
  pose proof (neighbor_loop_inside f baseIndex distance Hbase
                (ImageDimension f) 0 (N.of_nat counter) [] 1.0
                ltac:(lia) eq_refl ltac:(intros dim Hdim; lia)) as Hinside.
  destruct (neighbor_loop f baseIndex distance (seq 0 (ImageDimension f))
              (N.of_nat counter) [] 1.0) as [neighIndex overlap].
  cbn [fst] in Hinside.
  change (GetPixel (SetInputImage image f) neighIndex) with (image neighIndex).
  rewrite (Hagree neighIndex Hinside).
  change (accumulate_pixel (SetInputImage image f))
    with (accumulate_pixel f).
  destruct (negb (overlap =? 0.0));
    match goal with
    | |- context [if ?c then _ else _] => destruct c
    end; try reflexivity; apply IH.
Qed.

(** X12: when the base index of the point lies, in every dimension, no
    more than one step below the start index and not above the end
    index, the value interpolated depends on the pixels within the
    bounds only: no pixel outside [m_StartIndex .. m_EndIndex] is
    read. *)
Theorem EvaluateAtContinuousIndex_reads_inside image f
    (index : list double) :
  (forall dim, (dim < ImageDimension f)%nat ->
     (nth dim (m_StartIndex f) 0 - 1 <= Floor (nth dim index 0%float)
      <= nth dim (m_EndIndex f) 0)%Z
     /\ (nth dim (m_StartIndex f) 0 <= nth dim (m_EndIndex f) 0)%Z) ->
  (forall idx, inside f idx -> image idx = GetPixel f idx) ->
  EvaluateAtContinuousIndex Floor (SetInputImage image f) index
  = EvaluateAtContinuousIndex Floor f index.
Proof.
  intros Hbase Hagree. unfold EvaluateAtContinuousIndex.
  change (m_Neighbors (SetInputImage image f)) with (m_Neighbors f).
  change (Dimension (SetInputImage image f)) with (Dimension f).
  change (base_index Floor (SetInputImage image f) index)
    with (base_index Floor f index).
  change (distances Floor (SetInputImage image f) index)
    with (distances Floor f index).
  apply neighbors_loop_image; [| exact Hagree].
  intros dim Hdim. unfold base_index.
  rewrite nth_map_seq by exact Hdim. now apply Hbase.
Qed.



End InterpolationProperties.

Lemma EvaluateAtContinuousIndex_reads_inside_witness :
  EvaluateAtContinuousIndex Reference.Floor
    (SetInputImage fenced_ramp ramp_function) [4.25; -0.25]
  = EvaluateAtContinuousIndex Reference.Floor ramp_function [4.25; -0.25].
Proof.
  apply (EvaluateAtContinuousIndex_reads_inside Reference.Floor fenced_ramp
           ramp_function [4.25; -0.25]).
  - intros dim Hdim.
    destruct dim as [| [| dim]]; [vm_compute | vm_compute | simpl in Hdim; lia];
      repeat split; discriminate.
  - intros idx [_ Hin].
    pose proof (Hin 0%nat ltac:(simpl; lia)) as H0.
    pose proof (Hin 1%nat ltac:(simpl; lia)) as H1.
    simpl in H0, H1. unfold fenced_ramp.
    destruct (Z.leb_spec 0 (nth 0 idx 0%Z)); [| lia].
    destruct (Z.leb_spec (nth 0 idx 0%Z) 4); [| lia].
    destruct (Z.leb_spec 0 (nth 1 idx 0%Z)); [| lia].
    destruct (Z.leb_spec (nth 1 idx 0%Z) 4); [| lia].
    reflexivity.
Defined.


(** ** The taps of the order-0 kernel *)

Section KernelTaps.

Variable exp : double -> double.

(** The loop appends the Bessel terms of the orders that follow. *)
Lemma accumulate_taps op :
  forall fuel coeff sum c w,
    (2 <= length coeff)%nat ->
    accumulate exp fuel op (exp (- pixel_variance op)) (pixel_variance op)
      (1.0 - m_MaximumError op) (Z.of_nat (length coeff)) coeff sum
    = Returns (c, w) ->
    c = coeff
        ++ map (bessel_term exp op)
             (seq (length coeff) (length c - length coeff)).
Proof.
  induction fuel as [| fuel IH]; intros coeff sum c w Hlen;
    rewrite accumulate_unfold;
    destruct (CompensatedSummation.GetSum sum <? _);
    try discriminate;
    try (intros [= <- <-]; rewrite Nat.sub_diag; cbn [seq map];
         now rewrite app_nil_r).
  assert (Hterm : forall b,
            ModifiedBesselI exp (Z.of_nat (length coeff)) (pixel_variance op)
            = Returns b ->
            exp (- pixel_variance op) * b
            = bessel_term exp op (length coeff)).
  { intros b Hb. unfold bessel_term.
    destruct (length coeff) as [| [| n]] eqn:Hn; [lia | lia |].
    now rewrite Hb. }
  destruct (ModifiedBesselI exp (Z.of_nat (length coeff)) (pixel_variance op))
    as [b | e |]; cbn [bind]; try discriminate.
  cbv zeta. rewrite (Hterm b eq_refl).
  set (coeff' := coeff ++ [bessel_term exp op (length coeff)]).
  assert (Hlen' : length coeff' = S (length coeff))
    by (unfold coeff'; rewrite length_app; simpl; lia).
  assert (Hone : coeff' = coeff
                          ++ map (bessel_term exp op)
                               (seq (length coeff)
                                  (length coeff' - length coeff))).
  { rewrite Hlen'. replace (S (length coeff) - length coeff)%nat with 1%nat
      by lia. reflexivity. }
  destruct (_ <? _); [intros [= <- <-]; exact Hone |].
  destruct (_ <? _)%N; [intros [= <- <-]; exact Hone |].
  replace (Z.of_nat (length coeff) + 1)%Z with (Z.of_nat (length coeff'))
    by lia.
  intros Hrun.
  pose proof (accumulate_grows exp _ _ _ _ _ _ _ _ _ _ Hrun) as Hgrow.
  apply IH in Hrun; [| lia].
  rewrite Hrun at 1. unfold coeff' at 1. rewrite <- app_assoc. f_equal.
  rewrite Hlen'.
  replace (length c - length coeff)%nat
    with (S (length c - S (length coeff)))%nat by lia.
  reflexivity.
Qed.

(** X14: for every setting the half kernel is the list of the Bessel
    terms of the orders 0, 1, ..., [len - 1], with [len >= 2], and the
    kernel returned holds, at the distance [i] on either side of its
    centre, the term of order [i] divided by the normalizing sum of the
    half kernel. *)
Theorem GenerateGaussianCoefficients_taps op :
  exists len kernel w,
    (2 <= len)%nat
    /\ GenerateGaussianCoefficients exp op = Returns (kernel, w)
    /\ length kernel = (2 * len - 1)%nat
    /\ forall i, (i < len)%nat ->
         let taps := map (bessel_term exp op) (seq 0 len) in
         nth (len - 1 + i) kernel 0
         = bessel_term exp op i / normalizing_sum taps
         /\ nth (len - 1 - i) kernel 0
            = bessel_term exp op i / normalizing_sum taps.
Proof.
  destruct (GenerateGaussianCoefficients_returns exp op)
    as (rest & w & Hrun & E & _).
  assert (Hseeds : length (seeds exp op) = 2%nat) by reflexivity.
  change 2%Z with (Z.of_nat (length (seeds exp op))) in Hrun.
  apply accumulate_taps in Hrun; [| rewrite Hseeds; lia].
  rewrite Hseeds in Hrun.
  set (len := length (seeds exp op ++ rest)) in *.
  assert (Hlen : (2 <= len)%nat)
    by (unfold len; rewrite length_app; lia).
  assert (Htaps : seeds exp op ++ rest
                  = map (bessel_term exp op) (seq 0 len)).
  { rewrite Hrun.
    replace len with (2 + (len - 2))%nat at 2 by lia.
    rewrite seq_app, map_app. reflexivity. }
  exists len. eexists. exists w.
  split; [exact Hlen |]. split; [exact E |].
  split; [apply normalize_and_mirror_length; fold len; lia |].
  intros i Hi taps.
  assert (Hupper : nth (len - 1 + i) (normalize_and_mirror (seeds exp op ++ rest)) 0
                   = bessel_term exp op i / normalizing_sum taps).
  { unfold normalize_and_mirror. rewrite mirror_spec.
    fold (normalizing_sum (seeds exp op ++ rest)).
    rewrite Htaps. fold taps.
    set (scaled := map (fun c => c / normalizing_sum taps) taps).
    assert (Hscaled : length scaled = len)
      by (unfold scaled, taps; now rewrite !length_map, length_seq).
    assert (Htail : length (rev (tl scaled)) = (len - 1)%nat).
    { rewrite length_rev. destruct scaled; simpl in *; lia. }
    rewrite app_nth2 by lia. rewrite Htail.
    replace (len - 1 + i - (len - 1))%nat with i by lia.
    unfold scaled.
    rewrite nth_indep with (d' := 0 / normalizing_sum taps)
      by (rewrite length_map; unfold taps;
          now rewrite length_map, length_seq).
    rewrite (map_nth (fun c => c / normalizing_sum taps) taps 0 i).
    unfold taps at 1. now rewrite nth_map_seq by exact Hi. }
  split; [exact Hupper |].
  rewrite <- Hupper.
  rewrite normalize_and_mirror_symmetric
    by (rewrite normalize_and_mirror_length; fold len; lia).
  rewrite normalize_and_mirror_length by (fold len; lia).
  fold len. f_equal. lia.
Qed.

End KernelTaps.
